(** * blaze/compute/bcolz.py: the chunked execution engine over bcolz sources

    A shallow embedding of [blaze.compute.bcolz] and the properties of its
    partition planning, streaming reductions, memory policy, dispatch and
    chunk/merge/aggregate pipeline.

    Conventions.
    - Python integers are [Z]; lengths are [Z.of_nat (length _)].
    - A call returns a [Py.result]: a value, a raised exception, or nothing
      at all when it does not terminate.
    - float64 numbers are rationals ([Qc]); every float operation is the
      exact operation followed by a rounding function [rnd].  The exact
      instance takes [rnd] to be the identity.  IEEE special values only
      arise at a division by zero and are kept apart in [fl].
    - The modules of blaze this file imports ([blaze.expr], [split],
      [partitions], [compute]) are either parameters of the functions that
      call them or modelled from their contracts; such definitions say so. *)

From Stdlib Require Import String ZArith List Bool Lia QArith Qcanon Qround.
Import ListNotations.
Open Scope Z_scope.

(* ================================================================== *)
(** ** Python: exceptions, results, slices *)

Module Py.

(** The exception classes that occur in this module, directly or through
    the libraries it calls. *)
Inductive exn : Type :=
| ZeroDivisionError
| ValueError
| IndexError
| TypeError
| KeyError
| SyntaxError
| NameError
| UnboundLocalError
| AttributeError
| RuntimeError
| NotImplementedError
| MDNotImplementedError.

Definition exn_eqb (a b : exn) : bool :=
  match a, b with
  | ZeroDivisionError, ZeroDivisionError | ValueError, ValueError
  | IndexError, IndexError | TypeError, TypeError | KeyError, KeyError
  | SyntaxError, SyntaxError | NameError, NameError
  | UnboundLocalError, UnboundLocalError | AttributeError, AttributeError
  | RuntimeError, RuntimeError | NotImplementedError, NotImplementedError
  | MDNotImplementedError, MDNotImplementedError => true
  | _, _ => false
  end.

(** [issubclass a b] for the builtin hierarchy: [UnboundLocalError] derives
    from [NameError], [NotImplementedError] from [RuntimeError], and
    multipledispatch declares [MDNotImplementedError(NotImplementedError)]. *)
Definition issubclass (a b : exn) : bool :=
  exn_eqb a b ||
  match a, b with
  | UnboundLocalError, NameError => true
  | NotImplementedError, RuntimeError => true
  | MDNotImplementedError, NotImplementedError => true
  | MDNotImplementedError, RuntimeError => true
  | _, _ => false
  end.

(** The outcome of a call: a value, a raised exception, or no outcome at all
    because the call never returns. *)
Inductive result (A : Type) : Type :=
| Ok (a : A)
| Raise (e : exn)
| Diverge.
Arguments Ok {A} a.
Arguments Raise {A} e.
Arguments Diverge {A}.

Definition bind {A B} (m : result A) (k : A -> result B) : result B :=
  match m with
  | Ok a => k a
  | Raise e => Raise e
  | Diverge => Diverge
  end.

(** [try: m  except classes: handler] *)
Definition try_except {A} (m : result A) (classes : list exn)
           (handler : result A) : result A :=
  match m with
  | Ok a => Ok a
  | Raise e => if existsb (issubclass e) classes then handler else Raise e
  | Diverge => Diverge
  end.

Fixpoint mapM {A B} (f : A -> result B) (l : list A) : result (list B) :=
  match l with
  | [] => Ok []
  | x :: l' => bind (f x) (fun y => bind (mapM f l') (fun ys => Ok (y :: ys)))
  end.

Definition len {A} (l : list A) : Z := Z.of_nat (length l).

(** [slice(start, stop).indices(n)] with the default step: a negative
    index counts from the end, and both ends are clipped to [0, n]. *)
Definition clip (n i : Z) : Z :=
  if i <? 0 then Z.max 0 (i + n) else Z.min i n.

Definition slice_indices (n : Z) (s : Z * Z) : Z * Z :=
  (clip n (fst s), clip n (snd s)).

(** [b[start:stop]] *)
Definition getslice {A} (b : list A) (start stop : Z) : list A :=
  let '(lo, hi) := slice_indices (len b) (start, stop) in
  firstn (Z.to_nat (hi - lo)) (skipn (Z.to_nat lo) b).

End Py.

Import Py.

Declare Scope py_scope.
Delimit Scope py_scope with py.
Notation "x <- m ;; k" := (Py.bind m (fun x => k))
  (at level 61, m at next level, right associativity) : py_scope.
Open Scope py_scope.

(* ================================================================== *)
(** ** [chunks] and [get_chunk] (lines 183-196) *)

Section Chunks.

Context {A : Type}.

(** The [while start < n] loop of [chunks], recording the arguments of each
    slice it takes.  The loop need not terminate (a chunk size of zero never
    advances), so it runs on fuel and [None] means the fuel ran out. *)
Fixpoint chunk_slices (fuel : nat) (start n chunksize : Z)
  : option (list (Z * Z)) :=
  match fuel with
  | O => None
  | S fuel' =>
      if start <? n
      then option_map (cons (start, start + chunksize))
                      (chunk_slices fuel' (start + chunksize) n chunksize)
      else Some []
  end.

(** Fuel that is enough whenever [chunksize >= 1]. *)
Definition chunk_fuel (n : Z) : nat := S (Z.to_nat n).

(** [chunks(b, chunksize)]: the list of the slices the generator yields. *)
Definition chunks (b : list A) (chunksize : Z) : option (list (list A)) :=
  option_map (map (fun s => getslice b (fst s) (snd s)))
             (chunk_slices (chunk_fuel (len b)) 0 (len b) chunksize).

(** [get_chunk(b, i, chunksize)] *)
Definition get_chunk (b : list A) (i chunksize : Z) : list A :=
  let start := chunksize * i in
  let stop := chunksize * (i + 1) in
  getslice b start stop.

End Chunks.

(** The index ranges the slices of [chunks] really cover, once Python has
    clipped each slice to the source. *)
Definition chunk_ranges (n chunksize : Z) : option (list (Z * Z)) :=
  option_map (map (slice_indices n))
             (chunk_slices (chunk_fuel n) 0 n chunksize).

(** The default [chunksize=2**15] of [chunks] and [get_chunk]. *)
Definition default_chunksize : Z := 2 ^ 15.

(** [ceil(L / c)] on integers. *)
Definition ceil_div (L c : Z) : Z := (L + c - 1) / c.

(** The partition plan in closed form: range [k] is
    [c*k, min(c*(k+1), L)). *)
Definition plan (L c : Z) : list (Z * Z) :=
  map (fun k => (c * Z.of_nat k, Z.min (c * (Z.of_nat k + 1)) L))
      (seq 0 (Z.to_nat (ceil_div L c))).

Definition in_range (r : Z * Z) (x : Z) : Prop := fst r <= x < snd r.

(** The slice arguments of [m] turns of the loop that starts at [start]. *)
Definition raw_slices (start c : Z) (m : nat) : list (Z * Z) :=
  map (fun k => (start + c * Z.of_nat k, start + c * (Z.of_nat k + 1)))
      (seq 0 m).

(** [[b[s:e] for (s, e) in rs]] *)
Definition slices_of {A} (b : list A) (rs : list (Z * Z)) : list (list A) :=
  map (fun s => getslice b (fst s) (snd s)) rs.

(* ================================================================== *)
(** ** Numbers

    A float64 is a rational or one of the IEEE special values.  [VInt] and
    [VFloat] below cover Python's [int] and [float] as well as numpy's
    [int64] and [float64]; the two families differ in what a division by
    zero does, and that difference is written out where a division happens.
    Integer overflow and the rounding of each operation are not part of the
    type: rounding is the parameter [rnd] of the float operations. *)

Inductive fl : Type :=
| Fin (q : Qc)
| NaN
| PInf
| NInf.

Definition Z2Qc (z : Z) : Qc := Q2Qc (inject_Z z).

Definition fl_eq_dec (x y : fl) : {x = y} + {x <> y}.
Proof.
  decide equality. apply Qc_eq_dec.
Defined.

Definition Qc_ltb (x y : Qc) : bool :=
  match (x ?= y)%Qc with Lt => true | _ => false end.

(** IEEE addition on the extended values (no rounding). *)
Definition fl_add (x y : fl) : fl :=
  match x, y with
  | NaN, _ | _, NaN => NaN
  | PInf, NInf | NInf, PInf => NaN
  | PInf, _ | _, PInf => PInf
  | NInf, _ | _, NInf => NInf
  | Fin a, Fin b => Fin (a + b)%Qc
  end.

Section Float.

Variable rnd : Qc -> Qc.

Definition fadd (x y : Qc) : Qc := rnd (x + y)%Qc.
Definition fsub (x y : Qc) : Qc := rnd (x - y)%Qc.
Definition fmul (x y : Qc) : Qc := rnd (x * y)%Qc.

(** A sum that starts from zero: nothing is rounded before the second
    term arrives. *)
Definition sum_from_zero (xs : list Qc) : Qc :=
  match xs with
  | [] => 0%Qc
  | x :: xs' => fold_left fadd xs' x
  end.

(** [a * b] on numpy arrays, [a.sum()] on a numpy array or a carray, and
    Python's [builtins.sum]. *)
Definition np_mul (a b : list Qc) : list Qc :=
  map (fun p => fmul (fst p) (snd p)) (combine a b).
Definition np_sum (a : list Qc) : Qc := sum_from_zero a.
Definition builtins_sum (xs : list Qc) : Qc := sum_from_zero xs.

(** [x / d] where [x] is a Python float and [d] an int: Python raises. *)
Definition py_truediv (x : Qc) (d : Z) : result Qc :=
  if d =? 0 then Raise ZeroDivisionError
  else Ok (rnd (x / Z2Qc d)%Qc).

(** [x / d] where [x] is a numpy scalar: numpy warns and returns a special
    value, it does not raise. *)
Definition np_truediv (x : Qc) (d : Z) : fl :=
  if d =? 0 then
    match (x ?= 0)%Qc with
    | Eq => NaN
    | Gt => PInf
    | Lt => NInf
    end
  else Fin (rnd (x / Z2Qc d)%Qc).

End Float.

(** Exact arithmetic: nothing is rounded. *)
Definition exact (q : Qc) : Qc := q.

(** Rounding to the nearest tenth, halves up: a coarse fixed-point format
    in which the effects of rounding show on small inputs. *)
Definition round_tenths (q : Qc) : Qc :=
  (Z2Qc (Qfloor (q * Z2Qc 10 + Q2Qc (1 # 2))%Qc) / Z2Qc 10)%Qc.

(** [math.sqrt]: a negative argument is a [ValueError] (math domain error),
    NaN goes through.  [fsqrt] is the square root of the C library on the
    non-negative finite floats. *)
Definition math_sqrt (fsqrt : Qc -> Qc) (x : fl) : result fl :=
  match x with
  | Fin q => if Qc_ltb q 0 then Raise ValueError else Ok (Fin (fsqrt q))
  | NaN => Ok NaN
  | PInf => Ok PInf
  | NInf => Raise ValueError
  end.

(** A square root on the rationals, rounded down to a multiple of 2^-26. *)
Definition sqrt_fix (q : Qc) : Qc :=
  (Z2Qc (Z.sqrt (Qfloor (q * Z2Qc (2 ^ 52))%Qc)) / Z2Qc (2 ^ 26))%Qc.

Definition fl_negative (x : fl) : bool :=
  match x with
  | Fin q => Qc_ltb q 0
  | NInf => true
  | NaN | PInf => false
  end.

Definition fl_sqrt (fsqrt : Qc -> Qc) (x : fl) : fl :=
  match x with
  | Fin q => Fin (fsqrt q)
  | other => other
  end.

(** The variance formula of section 4.7 on the plain sums over the whole
    data: [(sum x^2 - (sum x)^2 / n) / (n - unbiased_flag)], the last
    division being the IEEE one. *)
Definition Qc_sum (xs : list Qc) : Qc := fold_right Qcplus 0%Qc xs.

Definition ieee_div (x d : Qc) : fl :=
  if Qc_eq_dec d 0%Qc then
    match (x ?= 0)%Qc with
    | Eq => NaN
    | Gt => PInf
    | Lt => NInf
    end
  else Fin (x / d)%Qc.

Definition variance_formula (unbiased_flag : bool) (xs : list Qc) : fl :=
  let n := len xs in
  let sum_x2 := Qc_sum (map (fun x => x * x)%Qc xs) in
  let sum_x := Qc_sum xs in
  ieee_div (sum_x2 - sum_x * sum_x / Z2Qc n)%Qc
           (Z2Qc (n - (if unbiased_flag then 1 else 0))).



(* ================================================================== *)
(** ** Data sources and values *)

(** A bcolz carray of float64 and a bcolz ctable of float64 columns, as the
    storage engine exposes them: the elements in order and the byte size it
    reports. *)
Record carray : Type := mk_carray { items : list Qc; ca_nbytes : Z }.
Record ctable : Type :=
  mk_ctable { names : list string; rows : list (list Qc); ct_nbytes : Z }.

Inductive bcolz : Type :=
| Carray (a : carray)
| Ctable (t : ctable).

Inductive kind : Type := carray_t | ctable_t.

Definition kind_of (d : bcolz) : kind :=
  match d with Carray _ => carray_t | Ctable _ => ctable_t end.

Definition nbytes (d : bcolz) : Z :=
  match d with Carray a => ca_nbytes a | Ctable t => ct_nbytes t end.

Definition bcolz_len (d : bcolz) : Z :=
  match d with Carray a => len (items a) | Ctable t => len (rows t) end.

(** Sequences of Python objects hold items. *)
Inductive item : Type :=
| IInt (z : Z)
| IFloat (x : fl)
| IStr (s : string)
| ITuple (xs : list fl).

Inductive ndarray : Type :=
| NdInt (xs : list Z)
| NdFloat (xs : list fl).

Inductive value : Type :=
| VInt (z : Z)
| VFloat (x : fl)
| VArray (a : ndarray)
| VTable (cols : list string) (rs : list (list fl))
| VList (xs : list item)
| VTuple (xs : list item)
| VIter (xs : list item).

(** [np.array([result])] *)
Definition np_array1 (v : value) : result value :=
  match v with
  | VInt z => Ok (VArray (NdInt [z]))
  | VFloat x => Ok (VArray (NdFloat [x]))
  | _ => Raise ValueError
  end.

(** [if expr.keepdims: result = np.array([result])] *)
Definition wrap (keepdims : bool) (v : value) : result value :=
  if keepdims then np_array1 v else Ok v.

(** [data[start:stop]]: bcolz hands back numpy data. *)
Definition bcolz_getslice (d : bcolz) (start stop : Z) : value :=
  match d with
  | Carray a => VArray (NdFloat (map Fin (getslice (items a) start stop)))
  | Ctable t => VTable (names t) (map (map Fin) (getslice (rows t) start stop))
  end.

(** [data[:]] *)
Definition materialize (d : bcolz) : value :=
  bcolz_getslice d 0 (bcolz_len d).

(** [into(Iterator, data)] *)
Definition into_Iterator (d : bcolz) : value :=
  match d with
  | Carray a => VIter (map (fun q => IFloat (Fin q)) (items a))
  | Ctable t => VIter (map (fun r => ITuple (map Fin r)) (rows t))
  end.

(* ================================================================== *)
(** ** Expression trees

    The expression classes are declared in [blaze.expr]; this module only
    imports them.  A node is its class, its attributes and its inputs; a leaf
    is a node without inputs.  A class that [bcolz.py] does not name is
    represented by the nearest class it does name. *)

Module Cls.

(** Modelled from the spec: the classes of blaze.expr are not part of this
    file; these are the names [bcolz.py] imports (lines 6-10), the operation
    kinds of section 2. *)
Inductive t : Type :=
| Expr | Symbol | Selection | Head | Field | Projection | ReLabel | Label
| ElemWise | Arithmetic | Broadcast | Distinct | By | Like | Slice
| Reduction | std | var | count | mean | nunique | sum | nelements.

Definition eq_dec (a b : t) : {a = b} + {a <> b}.
Proof.
  decide equality.
Defined.

Definition eqb (a b : t) : bool := if eq_dec a b then true else false.

End Cls.

(** Modelled from the spec: the node attributes of blaze.expr are not part
    of this file.  These are the ones the code reads off a node:
    [expr._name], [expr.n], [expr.keepdims], [expr.unbiased], and the number
    of the elementwise function or predicate the node applies. *)
Record attrs : Type :=
  mk_attrs { a_name : string; a_n : Z; a_keepdims : bool; a_unbiased : bool;
             a_fn : nat }.

Definition attrs_eqb (x y : attrs) : bool :=
  String.eqb (a_name x) (a_name y) && (a_n x =? a_n y) &&
  Bool.eqb (a_keepdims x) (a_keepdims y) &&
  Bool.eqb (a_unbiased x) (a_unbiased y) && Nat.eqb (a_fn x) (a_fn y).

(** Modelled from the spec: the expression node of blaze.expr is not part of
    this file.  Section 3: an immutable tree node with a tag for its
    operation kind and zero or more child nodes. *)
#[warnings="-register-all"]
Inductive Expr : Type :=
| Node (cls : Cls.t) (a : attrs) (inputs : list Expr).

Definition cls_of (e : Expr) : Cls.t := match e with Node c _ _ => c end.
Definition attrs_of (e : Expr) : attrs := match e with Node _ a _ => a end.
Definition _inputs (e : Expr) : list Expr :=
  match e with Node _ _ i => i end.
Definition keepdims (e : Expr) : bool := a_keepdims (attrs_of e).
Definition unbiased (e : Expr) : bool := a_unbiased (attrs_of e).

Definition no_attrs : attrs := mk_attrs "" 0 false false 0.

(** [Symbol(name, dshape)] *)
Definition Symbol (name : string) : Expr :=
  Node Cls.Symbol (mk_attrs name 0 false false 0) [].

(** Modelled from the spec: [Expr.isidentical] of blaze.expr is not part of
    this file.  [a.isidentical(b)]: same class, same attributes, identical
    inputs. *)
Fixpoint isidentical (x y : Expr) : bool :=
  match x, y with
  | Node c1 a1 i1, Node c2 a2 i2 =>
      Cls.eqb c1 c2 && attrs_eqb a1 a2 &&
      (fix all2 (l1 l2 : list Expr) : bool :=
         match l1, l2 with
         | [], [] => true
         | u :: l1', v :: l2' => isidentical u v && all2 l1' l2'
         | _, _ => false
         end) i1 i2
  end.

(** Modelled from the spec: [Expr._traverse] of blaze.expr is not part of
    this file.  It yields the node and every node below it. *)
Fixpoint _traverse (e : Expr) : list Expr :=
  match e with
  | Node _ _ inputs => e :: flat_map _traverse inputs
  end.

(** [toolz.unique]: the first occurrence of each element, in order. *)
Fixpoint unique_from (seen l : list Expr) : list Expr :=
  match l with
  | [] => []
  | x :: l' =>
      if existsb (isidentical x) seen then unique_from seen l'
      else x :: unique_from (x :: seen) l'
  end.

Definition unique (l : list Expr) : list Expr := unique_from [] l.

(** Modelled from the spec: [Expr._leaves] of blaze.expr is not part of this
    file.  The leaves are the symbol placeholders at the bottom of the tree
    (section 3, Expression Node), each once, in the order met. *)
Fixpoint _leaves (e : Expr) : list Expr :=
  match e with
  | Node _ _ [] => [e]
  | Node _ _ inputs => unique (flat_map _leaves inputs)
  end.

(** Modelled from the spec: [path] of blaze.expr is not part of this file.
    It yields the nodes on the way from [a] down to [b] (section 4.2: every
    node on the path from the root down to a given leaf), going at each node
    into the first input under which [b] occurs.  The flag tells whether the
    generator ends; when [b] does not occur under [a] it does not, and the
    last node is yielded over and over. *)
Fixpoint path (a b : Expr) : list Expr * bool :=
  if isidentical a b then ([b], true)
  else
    match a with
    | Node _ _ inputs =>
        (fix first_containing (cs : list Expr) : list Expr * bool :=
           match cs with
           | [] => ([a], false)
           | c :: cs' =>
               if existsb (isidentical b) (_traverse c)
               then let (p, ends) := path c b in (a :: p, ends)
               else first_containing cs'
           end) inputs
    end.

(** [all(pred(e) for e in gen)] over such a generator: [all] stops at the
    first failure, and never returns if the generator neither fails nor
    ends. *)
Definition all_of (pred : Expr -> bool) (gen : list Expr * bool)
  : result bool :=
  if forallb pred (fst gen) then
    if snd gen then Ok true else Diverge
  else Ok false.

(** [l[0]] *)
Definition first {A} (l : list A) : result A :=
  match l with
  | [] => Raise IndexError
  | x :: _ => Ok x
  end.

(** A scope [{symbol: value}] and the lookup the evaluator makes in it. *)
Definition scope : Type := list (Expr * value).

Fixpoint scope_get (s : scope) (e : Expr) : option value :=
  match s with
  | [] => None
  | (k, v) :: s' => if isidentical k e then Some v else scope_get s' e
  end.

(* ================================================================== *)
(** ** The reductions on a carray (lines 95-136, 152-157) *)

Section Reductions.

Variable rnd : Qc -> Qc.
Variable fsqrt : Qc -> Qc.

(** [compute_up(sum, carray)], lines 95-100.  [carray.sum()] is a numpy
    scalar. *)
Definition compute_up_sum (expr : Expr) (data : carray) : result value :=
  let result := VFloat (Fin (np_sum rnd (items data))) in
  wrap (keepdims expr) result.

(** [compute_up(count, ...)], lines 103-108 *)
Definition compute_up_count (expr : Expr) (data : bcolz) : result value :=
  let result := VInt (bcolz_len data) in
  wrap (keepdims expr) result.

(** [compute_up(mean, carray)], lines 111-116: a numpy scalar divided by an
    int. *)
Definition compute_up_mean (expr : Expr) (ba : carray) : result value :=
  let result :=
    VFloat (np_truediv rnd (np_sum rnd (items ba)) (len (items ba))) in
  wrap (keepdims expr) result.

Definition of_option {A} (o : option A) : result A :=
  match o with
  | Some a => Ok a
  | None => Diverge
  end.

(** [compute_up(var, carray)], lines 119-127.  [E_X] is made a Python float,
    so [(E_X * E_X) / n] is Python's division; the outer division has a numpy
    scalar on the left.  The [chunksize] argument is not passed on to
    [chunks]. *)
Definition compute_up_var (expr : Expr) (ba : carray) : result value :=
  let n := len (items ba) in
  cs <- of_option (chunks (items ba) default_chunksize) ;;
  let E_X_2 :=
    builtins_sum rnd
      (map (fun chunk => np_sum rnd (np_mul rnd chunk chunk)) cs) in
  let E_X := np_sum rnd (items ba) in
  t <- py_truediv rnd (fmul rnd E_X E_X) n ;;
  let result :=
    VFloat (np_truediv rnd (fsub rnd E_X_2 t) (n - Z.b2z (unbiased expr))) in
  wrap (keepdims expr) result.

(** [expr._child.var(unbiased=expr.unbiased)] *)
Definition child_var (expr : Expr) : Expr :=
  Node Cls.var (mk_attrs "" 0 false (unbiased expr) 0)
       (firstn 1 (_inputs expr)).

(** [math.sqrt(result)] on a value. *)
Definition math_sqrt_value (v : value) : result value :=
  match v with
  | VFloat x => r <- math_sqrt fsqrt x ;; Ok (VFloat r)
  | VInt z => r <- math_sqrt fsqrt (Fin (Z2Qc z)) ;; Ok (VFloat r)
  | _ => Raise TypeError
  end.

(** [compute_up(std, carray)], lines 130-136 *)
Definition compute_up_std (expr : Expr) (ba : carray) : result value :=
  result <- compute_up_var (child_var expr) ba ;;
  result <- math_sqrt_value result ;;
  wrap (keepdims expr) result.

(** [compute_up((ReLabel, Label), ...)], lines 139-141 *)
Definition compute_up_ReLabel (expr : Expr) (b : bcolz) : result value :=
  Raise NotImplementedError.

(** [compute_up(nunique, carray)], lines 152-157 *)
Definition compute_up_nunique (expr : Expr) (data : carray) : result value :=
  let result := VInt (len (nodup Qc_eq_dec (items data))) in
  wrap (keepdims expr) result.

(** [compute_up(Head, ...)], lines 80-82 *)
Definition compute_up_Head (expr : Expr) (data : bcolz) : result value :=
  Ok (bcolz_getslice data 0 (a_n (attrs_of expr))).

End Reductions.

(* ================================================================== *)
(** ** The memory policy (lines 61-77, 144-149, 160-167)

    [available_memory()] reads the host; its successive readings are the
    function [available_memory], and the state threaded through a
    computation is the number of readings taken so far. *)

Definition M (A : Type) : Type := nat -> result A * nat.

Definition pure {A} (r : result A) : M A := fun reads => (r, reads).

Definition mbind {A B} (m : M A) (k : A -> M B) : M B :=
  fun reads =>
    match m reads with
    | (Ok a, reads') => k a reads'
    | (Raise e, reads') => (Raise e, reads')
    | (Diverge, reads') => (Diverge, reads')
    end.

(** [nb < avail / 4], with true division. *)
Definition comfortable (nb avail : Z) : bool :=
  Qc_ltb (Z2Qc nb) (Z2Qc avail / Z2Qc 4)%Qc.

Section MemoryPolicy.

Variable available_memory : nat -> Z.

(** The other backends [compute_up] recurses into: on in-memory numpy or
    pandas data, on a Python iterator, and on a [ChunkIndexable]. *)
Variable compute_up_memory : Expr -> value -> result value.
Variable compute_up_Iterator : Expr -> value -> result value.
Variable compute_up_ChunkIndexable : Expr -> bcolz -> result value.

(** [eval_str(expr.predicate._expr)] and [data.where(s)] *)
Variable eval_str : Expr -> result string.
Variable ctable_where : ctable -> string -> result value.

(** [data.nbytes < available_memory() / 4]: one reading per evaluation. *)
Definition fits_in_memory (data : bcolz) : M bool :=
  fun reads =>
    (Ok (comfortable (nbytes data) (available_memory reads)), S reads).

(** [compute_up(Selection, ctable)] as first defined, lines 61-70 *)
Definition compute_up_Selection_where (expr : Expr) (data : ctable)
  : M value :=
  mbind (fits_in_memory (Ctable data)) (fun fits =>
    if fits : bool
    then pure (compute_up_memory expr (materialize (Ctable data)))
    else
      pure (s <- eval_str expr ;;
            try_except
              (ctable_where data s)
              [NotImplementedError; NameError; AttributeError]
              (compute_up_Iterator expr (into_Iterator (Ctable data))))).

(** [compute_up(Selection, ctable)] as defined again, lines 73-77 *)
Definition compute_up_Selection (expr : Expr) (data : ctable) : M value :=
  mbind (fits_in_memory (Ctable data)) (fun fits =>
    if fits : bool
    then pure (compute_up_memory expr (materialize (Ctable data)))
    else pure (compute_up_Iterator expr (into_Iterator (Ctable data)))).

(** [compute_up((Arithmetic, Broadcast, ElemWise, Distinct, By, nunique,
    Like), ...)], lines 144-149 *)
Definition compute_up_in_memory_or_stream (expr : Expr) (data : bcolz)
  : M value :=
  mbind (fits_in_memory data) (fun fits =>
    if fits : bool
    then pure (compute_up_memory expr (materialize data))
    else pure (compute_up_Iterator expr (into_Iterator data))).

(** [compute_up(Reduction, ...)], lines 160-167: the chunked evaluation is
    not under an [else]. *)
Definition compute_up_Reduction (expr : Expr) (data : bcolz) : M value :=
  mbind (fits_in_memory data) (fun fits =>
    pure (_ <- (if fits : bool
                then result <- compute_up_memory expr (materialize data) ;;
                     Ok tt
                else Ok tt) ;;
          result <- compute_up_ChunkIndexable expr data ;;
          wrap (keepdims expr) result)).

End MemoryPolicy.

(* ================================================================== *)
(** ** Multiple dispatch

    [@dispatch(classes, kinds)] registers a body under every signature of the
    product; registering a signature again replaces the body it had
    ([Dispatcher.add] assigns into a dict).  A call runs the body of the most
    specific signature that accepts the arguments. *)

Inductive impl : Type :=
| up_Selection_where | up_Selection | up_Head | up_Field | up_Projection
| up_sum | up_count | up_mean | up_var | up_std | up_ReLabel
| up_in_memory_or_stream | up_nunique | up_Reduction | up_Slice
| up_nelements.

Definition signature : Type := (Cls.t * kind)%type.

Definition kind_eqb (a b : kind) : bool :=
  match a, b with
  | carray_t, carray_t | ctable_t, ctable_t => true
  | _, _ => false
  end.

Definition sig_eqb (a b : signature) : bool :=
  Cls.eqb (fst a) (fst b) && kind_eqb (snd a) (snd b).

(** [funcs[signature] = func] *)
Fixpoint dict_set (funcs : list (signature * impl)) (s : signature) (f : impl)
  : list (signature * impl) :=
  match funcs with
  | [] => [(s, f)]
  | (s', g) :: rest =>
      if sig_eqb s' s then (s, f) :: rest else (s', g) :: dict_set rest s f
  end.

(** The [compute_up] registrations of the file, in the order they run. *)
Definition registrations : list (list Cls.t * list kind * impl) :=
  [ ([Cls.Selection], [ctable_t], up_Selection_where);
    ([Cls.Selection], [ctable_t], up_Selection);
    ([Cls.Head], [carray_t; ctable_t], up_Head);
    ([Cls.Field], [ctable_t], up_Field);
    ([Cls.Projection], [ctable_t], up_Projection);
    ([Cls.sum], [carray_t; ctable_t], up_sum);
    ([Cls.count], [ctable_t; carray_t], up_count);
    ([Cls.mean], [carray_t], up_mean);
    ([Cls.var], [carray_t], up_var);
    ([Cls.std], [carray_t], up_std);
    ([Cls.ReLabel; Cls.Label], [carray_t; ctable_t], up_ReLabel);
    ([Cls.Arithmetic; Cls.Broadcast; Cls.ElemWise; Cls.Distinct; Cls.By;
      Cls.nunique; Cls.Like], [carray_t; ctable_t], up_in_memory_or_stream);
    ([Cls.nunique], [carray_t], up_nunique);
    ([Cls.Reduction], [carray_t; ctable_t], up_Reduction);
    ([Cls.Slice], [carray_t; ctable_t], up_Slice);
    ([Cls.nelements], [carray_t; ctable_t], up_nelements) ].

Definition register (funcs : list (signature * impl))
           (r : list Cls.t * list kind * impl) : list (signature * impl) :=
  let '(classes, kinds, f) := r in
  fold_left (fun fs s => dict_set fs s f)
            (flat_map (fun c => map (fun k => (c, k)) kinds) classes) funcs.

Definition compute_up_funcs : list (signature * impl) :=
  Eval cbv in fold_left register registrations [].

Section Dispatch.

(** [issubclass] on the expression classes, as [blaze.expr] declares them. *)
Variable subclass : Cls.t -> Cls.t -> bool.

Definition accepts (c : Cls.t) (k : kind) (s : signature) : bool :=
  subclass c (fst s) && kind_eqb k (snd s).

(** The signature that accepts [(c, k)] and is below every other signature
    that does. *)
Definition most_specific (funcs : list (signature * impl)) (c : Cls.t)
           (k : kind) (s : signature) : bool :=
  accepts c k s &&
  forallb (fun e => implb (accepts c k (fst e))
                          (subclass (fst s) (fst (fst e))))
          funcs.

Definition resolve (funcs : list (signature * impl)) (c : Cls.t) (k : kind)
  : option impl :=
  option_map snd (find (fun e => most_specific funcs c k (fst e)) funcs).

Definition isinstance (e : Expr) (classes : list Cls.t) : bool :=
  existsb (subclass (cls_of e)) classes.

Variable rnd : Qc -> Qc.
Variable fsqrt : Qc -> Qc.
Variable available_memory : nat -> Z.
Variable compute_up_memory : Expr -> value -> result value.
Variable compute_up_Iterator : Expr -> value -> result value.
Variable compute_up_ChunkIndexable : Expr -> bcolz -> result value.
Variable eval_str : Expr -> result string.
Variable ctable_where : ctable -> string -> result value.

(** The bodies that are one indexing call into bcolz or numpy ([Field],
    [Projection], [Slice], [nelements]) and [ctable.sum]. *)
Variable compute_up_indexing : impl -> Expr -> bcolz -> result value.

Definition run (f : impl) (expr : Expr) (data : bcolz) : M value :=
  match f, data with
  | up_Selection_where, Ctable t =>
      compute_up_Selection_where available_memory compute_up_memory
                                 compute_up_Iterator eval_str ctable_where
                                 expr t
  | up_Selection, Ctable t =>
      compute_up_Selection available_memory compute_up_memory
                           compute_up_Iterator expr t
  | up_Head, _ => pure (compute_up_Head expr data)
  | up_sum, Carray a => pure (compute_up_sum rnd expr a)
  | up_count, _ => pure (compute_up_count expr data)
  | up_mean, Carray a => pure (compute_up_mean rnd expr a)
  | up_var, Carray a => pure (compute_up_var rnd expr a)
  | up_std, Carray a => pure (compute_up_std rnd fsqrt expr a)
  | up_ReLabel, _ => pure (compute_up_ReLabel expr data)
  | up_in_memory_or_stream, _ =>
      compute_up_in_memory_or_stream available_memory compute_up_memory
                                     compute_up_Iterator expr data
  | up_nunique, Carray a => pure (compute_up_nunique expr a)
  | up_Reduction, _ =>
      compute_up_Reduction available_memory compute_up_memory
                           compute_up_ChunkIndexable expr data
  | _, _ => pure (compute_up_indexing f expr data)
  end.

(** [compute_up(expr, data)] on a bcolz source. *)
Definition compute_up (expr : Expr) (data : bcolz) : M value :=
  match resolve compute_up_funcs (cls_of expr) (kind_of data) with
  | Some f => run f expr data
  | None => pure (Raise NotImplementedError)
  end.

End Dispatch.

(** Modelled from the spec: the class hierarchy of blaze.expr is not part of
    this file; the properties below hold for every hierarchy, and this one
    serves in the examples.  Every class derives from [Expr], the reductions
    of section 4.7 from [Reduction], the elementwise operations from
    [ElemWise]. *)
Definition blaze_subclass (a b : Cls.t) : bool :=
  Cls.eqb a b ||
  match b with
  | Cls.Expr => true
  | Cls.Reduction =>
      match a with
      | Cls.std | Cls.var | Cls.count | Cls.mean | Cls.nunique | Cls.sum
      | Cls.nelements => true
      | _ => false
      end
  | Cls.ElemWise =>
      match a with
      | Cls.Field | Cls.Projection | Cls.ReLabel | Cls.Label
      | Cls.Arithmetic | Cls.Broadcast => true
      | _ => false
      end
  | _ => false
  end.

(* ================================================================== *)
(** ** [compute_down]: the direct path for [Head] and the chunked pipeline *)

(** [Cheap = (Head, ElemWise, Selection, Distinct, Symbol)], line 45 *)
Definition Cheap : list Cls.t :=
  [Cls.Head; Cls.ElemWise; Cls.Selection; Cls.Distinct; Cls.Symbol].

(** [isinstance(e, Cheap)] on every node of a path. *)
Definition all_cheap (subclass : Cls.t -> Cls.t -> bool) (p : list Expr)
  : bool :=
  forallb (fun e => isinstance subclass e Cheap) p.

(** [np.asarray] of one operand of [np.concatenate]. *)
Definition item_number (i : item) : result fl :=
  match i with
  | IInt z => Ok (Fin (Z2Qc z))
  | IFloat x => Ok x
  | _ => Raise ValueError
  end.

Definition as_ndarray (v : value) : result ndarray :=
  match v with
  | VArray a => Ok a
  | VList xs | VTuple xs => ys <- mapM item_number xs ;; Ok (NdFloat ys)
  | _ => Raise ValueError
  end.

Definition promote (a : ndarray) : list fl :=
  match a with
  | NdInt xs => map (fun z => Fin (Z2Qc z)) xs
  | NdFloat xs => xs
  end.

Definition nd_append (a b : ndarray) : ndarray :=
  match a, b with
  | NdInt xs, NdInt ys => NdInt (xs ++ ys)
  | _, _ => NdFloat (promote a ++ promote b)
  end.

(** [np.concatenate(parts)] along the first axis. *)
Definition np_concatenate (parts : list value) : result value :=
  arrays <- mapM as_ndarray parts ;;
  match arrays with
  | [] => Raise ValueError
  | a :: rest => Ok (VArray (fold_left nd_append rest a))
  end.

Definition as_table (v : value) : result (list string * list (list fl)) :=
  match v with
  | VTable cols rs => Ok (cols, rs)
  | _ => Raise TypeError
  end.

(** [iter(v)] *)
Definition iter_items (v : value) : result (list item) :=
  match v with
  | VList xs | VTuple xs | VIter xs => Ok xs
  | VArray (NdInt xs) => Ok (map IInt xs)
  | VArray (NdFloat xs) => Ok (map IFloat xs)
  | VTable cols _ => Ok (map IStr cols)
  | VInt _ | VFloat _ => Raise TypeError
  end.

(** [list(concat(parts))] *)
Definition list_concat (parts : list value) : result value :=
  xss <- mapM iter_items parts ;;
  Ok (VList (concat xss)).

(** What a call of [map] hands back: a list, or an iterator over results
    that are yet to be computed.  Python 2's builtin [map] and the [map] of a
    pool build the whole list before they return; Python 3's builtin [map]
    returns at once with a lazy iterator. *)
Inductive sequence : Type :=
| PyList (xs : list value)
| MapIterator (pending : list (result value)).

Definition map_function : Type :=
  (Z * Z -> result value) -> list (Z * Z) -> result sequence.

Definition list_map : map_function :=
  fun f xs => ys <- mapM f xs ;; Ok (PyList ys).

Definition lazy_map : map_function :=
  fun f xs => Ok (MapIterator (map f xs)).

(** The array that holds the elements of several arrays in order: an
    integer array when all of them are, a float array otherwise. *)
Definition nd_is_int (a : ndarray) : bool :=
  match a with NdInt _ => true | NdFloat _ => false end.

Definition nd_ints (a : ndarray) : list Z :=
  match a with NdInt xs => xs | NdFloat _ => [] end.

Definition nd_join (l : list ndarray) : ndarray :=
  if forallb nd_is_int l then NdInt (flat_map nd_ints l)
  else NdFloat (flat_map promote l).

(** The items an iteration over a value yields; a scalar has none to
    yield. *)
Definition items_of (v : value) : list item :=
  match v with
  | VList xs | VTuple xs | VIter xs => xs
  | VArray (NdInt xs) => map IInt xs
  | VArray (NdFloat xs) => map IFloat xs
  | VTable cols _ => map IStr cols
  | VInt _ | VFloat _ => []
  end.

Definition is_scalar (v : value) : bool :=
  match v with VInt _ | VFloat _ => true | _ => false end.

Definition is_array (v : value) : bool :=
  match v with VArray _ => true | _ => false end.

Definition is_sequence (v : value) : bool :=
  match v with VList _ | VTuple _ | VIter _ => true | _ => false end.

Section Pipeline.

Variable subclass : Cls.t -> Cls.t -> bool.

(** The generic evaluator [compute(expr, {symbol: data})], the splitter
    [split(leaf, expr, chunk=chunk)] and the planner
    [partitions(data, chunksize=(chunksize,))]: other modules of blaze. *)
Variable compute : Expr -> scope -> result value.
Variable split : Expr -> Expr -> Expr -> result ((Expr * Expr) * (Expr * Expr)).
Variable partitions : bcolz -> Z -> list (Z * Z).

(** [pd.concat] of frames whose columns differ. *)
Variable pd_concat_unaligned : list value -> result value.

(** [compute_down(Head, ...)], lines 47-58 *)
Definition compute_down_Head (expr : Expr) (data : bcolz) : result value :=
  leaf <- first (_leaves expr) ;;
  cheap <- all_of (fun e => isinstance subclass e Cheap) (path expr leaf) ;;
  if cheap : bool then compute expr [(leaf, into_Iterator data)]
  else Raise MDNotImplementedError.

(** [pd.concat(parts)] *)
Definition pd_concat (parts : list value) : result value :=
  tables <- mapM as_table parts ;;
  match tables with
  | [] => Raise ValueError
  | (cols, _) :: _ =>
      if forallb (fun t => if list_eq_dec string_dec (fst t) cols
                           then true else false) tables
      then Ok (VTable cols (flat_map snd tables))
      else pd_concat_unaligned parts
  end.

(** Lines 221-226.  Without a branch taken, [intermediate] is unbound when
    line 228 reads it. *)
Definition merge (parts : list value) : result value :=
  p0 <- first parts ;;
  match p0 with
  | VArray _ => np_concatenate parts
  | VTable _ _ => pd_concat parts
  | VList _ | VTuple _ | VIter _ => list_concat parts
  | VInt _ | VFloat _ => Raise UnboundLocalError
  end.

(** [compute_chunk], lines 204-206 *)
Definition compute_chunk (source : bcolz) (chunk chunk_expr : Expr)
           (data_index : Z * Z) : result value :=
  let part := bcolz_getslice source (fst data_index) (snd data_index) in
  compute chunk_expr [(chunk, part)].

(** [compute_down(Expr, ...)], lines 209-228.  [map] is the keyword
    argument of that name.  [parts[0]] needs a list: a [map] iterator cannot
    be indexed, and line 221 raises [TypeError] before any of its items is
    computed. *)
Definition compute_down (map : map_function) (expr : Expr) (data : bcolz)
           (chunksize : Z) : result value :=
  leaf <- first (_leaves expr) ;;
  let chunk := Symbol "chunk" in
  sp <- split leaf expr chunk ;;
  let '((chunk, chunk_expr), (agg, agg_expr)) := sp in
  let data_parts := partitions data chunksize in
  parts <- map (compute_chunk data chunk chunk_expr) data_parts ;;
  match parts with
  | PyList parts =>
      intermediate <- merge parts ;;
      compute agg_expr [(agg, intermediate)]
  | MapIterator _ => Raise TypeError
  end.

(** The dispatcher of [compute_down]: the [Head] body comes first for a
    [Head] expression, and [MDNotImplementedError] hands over to the next
    body. *)
Definition compute_down_dispatch (map : map_function) (expr : Expr)
           (data : bcolz) (chunksize : Z) : result value :=
  if subclass (cls_of expr) Cls.Head then
    match compute_down_Head expr data with
    | Raise MDNotImplementedError => compute_down map expr data chunksize
    | r => r
    end
  else compute_down map expr data chunksize.

End Pipeline.

(* ================================================================== *)
(** ** The collaborators of the pipeline, from their contracts *)




(** The symbol the splitter binds the merged intermediate to. *)
Definition agg_symbol : Expr := Symbol "aggregate".

(** Modelled from the spec: [Expr._subs] of blaze.expr is not part of this
    file.  [expr._subs({old: new})] puts [new] where [old] stands. *)
Fixpoint subs (old new e : Expr) : Expr :=
  if isidentical e old then new
  else
    match e with
    | Node c a inputs => Node c a (map (subs old new) inputs)
    end.

Definition with_keepdims (a : attrs) : attrs :=
  mk_attrs (a_name a) (a_n a) true (a_unbiased a) (a_fn a).

(** Modelled from the spec: [split] of blaze.expr.split is not part of this
    file.  Section 4.7 gives the decomposition of each reduction: a sum is the
    sum of the per-chunk sums, a count is the sum of the per-chunk lengths,
    a distinct count counts the union of the per-chunk distinct sets.  The
    per-chunk reduction keeps its result as a one-element array (section 4.7,
    last item), which is what the merger concatenates; the map below the
    reduction goes into the chunk expression whole (section 4.4). *)
Definition split_model (leaf expr chunk : Expr)
  : result ((Expr * Expr) * (Expr * Expr)) :=
  match expr with
  | Node c a [child] =>
      let child' := subs leaf chunk child in
      let agg := agg_symbol in
      match c with
      | Cls.sum =>
          Ok ((chunk, Node Cls.sum (with_keepdims a) [child']),
              (agg, Node Cls.sum a [agg]))
      | Cls.count =>
          Ok ((chunk, Node Cls.count (with_keepdims a) [child']),
              (agg, Node Cls.sum a [agg]))
      | Cls.nunique =>
          Ok ((chunk, Node Cls.Distinct no_attrs [child']),
              (agg, Node Cls.nunique a [agg]))
      | _ => Raise NotImplementedError
      end
  | _ => Raise NotImplementedError
  end.

(** Modelled from the spec: [partitions] of blaze.partition is not part of
    this file.  Section 4.3: [ceil(length / chunk_size)] half-open ranges in
    source order, the last one possibly shorter. *)
Definition partitions_model (data : bcolz) (chunksize : Z) : list (Z * Z) :=
  plan (bcolz_len data) chunksize.

Section Evaluator.

(** The elementwise functions and predicates, by number. *)
Variable ufunc : nat -> fl -> fl.
Variable predicate : nat -> fl -> bool.

Definition fl_sum (xs : list fl) : fl := fold_left fl_add xs (Fin 0%Qc).

Definition Z_sum (xs : list Z) : Z := fold_left Z.add xs 0.

(** What a node computes from the value of its input. *)
Definition apply_node (c : Cls.t) (a : attrs) (v : value) : result value :=
  match c, v with
  | Cls.ElemWise, VArray (NdFloat xs) =>
      Ok (VArray (NdFloat (map (ufunc (a_fn a)) xs)))
  | Cls.Selection, VArray (NdFloat xs) =>
      Ok (VArray (NdFloat (filter (predicate (a_fn a)) xs)))
  | Cls.Head, VArray (NdFloat xs) =>
      Ok (VArray (NdFloat (getslice xs 0 (a_n a))))
  | Cls.Distinct, VArray (NdFloat xs) =>
      Ok (VArray (NdFloat (nodup fl_eq_dec xs)))
  | Cls.sum, VArray (NdFloat xs) => wrap (a_keepdims a) (VFloat (fl_sum xs))
  | Cls.sum, VArray (NdInt xs) => wrap (a_keepdims a) (VInt (Z_sum xs))
  | Cls.count, VArray (NdFloat xs) => wrap (a_keepdims a) (VInt (len xs))
  | Cls.count, VArray (NdInt xs) => wrap (a_keepdims a) (VInt (len xs))
  | Cls.nunique, VArray (NdFloat xs) =>
      wrap (a_keepdims a) (VInt (len (nodup fl_eq_dec xs)))
  | _, _ => Raise NotImplementedError
  end.

(** Modelled from the spec: the generic evaluator [compute] of
    blaze.compute.core is not part of this file.  Section 6:
    [evaluate(expression, bindings)] evaluates an expression tree given the
    data bound to its symbols; section 4.7 gives what the reductions return.
    Arithmetic is exact here. *)
Fixpoint compute_model (e : Expr) (s : scope) : result value :=
  match scope_get s e with
  | Some v => Ok v
  | None =>
      match e with
      | Node c a [child] => v <- compute_model child s ;; apply_node c a v
      | _ => Raise NotImplementedError
      end
  end.

(** The whole pipeline on the modelled collaborators, with a [map] that
    returns a list, and the direct evaluation of the expression with its
    leaf bound to the whole data. *)
Definition chunked (expr : Expr) (data : bcolz) (chunksize : Z)
  : result value :=
  compute_down compute_model split_model partitions_model
               (fun _ => Raise NotImplementedError) list_map expr data
               chunksize.


(** A map-like transform over [leaf]: a chain of elementwise nodes. *)
Fixpoint map_chain (leaf m : Expr) : bool :=
  isidentical m leaf ||
  match m with
  | Node Cls.ElemWise _ [m'] => map_chain leaf m'
  | _ => false
  end.



End Evaluator.

(** An elementwise function for the examples: [x * x + 1]. *)
Definition square_plus_one (n : nat) (x : fl) : fl :=
  match x with
  | Fin q => Fin (q * q + 1)%Qc
  | other => other
  end.

(** The data and the reductions of the scenarios of section 8. *)
Definition one_to_ten : carray :=
  mk_carray (map Z2Qc [1; 2; 3; 4; 5; 6; 7; 8; 9; 10]) 80.

Definition reduction_of (c : Cls.t) (unbiased_flag : bool) : Expr :=
  Node c (mk_attrs "" 0 false unbiased_flag 0) [Symbol "t"].


Definition compute_bound (e : Expr) (s : scope) : result value :=
  match s with
  | (_, v) :: _ => Ok v
  | [] => Raise KeyError
  end.


(* ================================================================== *)
(** * Properties *)

(* ================================================================== *)
(** ** Ceiling division *)

Lemma ceil_div_step (x c : Z) : 1 <= c -> ceil_div (x - c) c = ceil_div x c - 1.
Proof.
  intros Hc. unfold ceil_div.
  replace (x - c + c - 1) with (x + c - 1 + (-1) * c) by ring.
  rewrite Z.div_add by lia. ring.
Qed.

Lemma ceil_div_pos (x c : Z) : 1 <= c -> 0 < x -> 1 <= ceil_div x c.
Proof.
  intros Hc Hx. unfold ceil_div.
  assert (H : 1 = c / c) by (rewrite Z.div_same; lia).
  rewrite H at 1. apply Z.div_le_mono; lia.
Qed.

Lemma ceil_div_nonpos (x c : Z) : 1 <= c -> x <= 0 -> ceil_div x c <= 0.
Proof.
  intros Hc Hx. unfold ceil_div.
  destruct (Z.eq_dec x 0) as [->|Hne].
  - rewrite Z.div_small; lia.
  - apply Z.lt_succ_r, Z.div_lt_upper_bound; lia.
Qed.

Lemma ceil_div_bounds (x c : Z) :
  1 <= c -> x <= c * ceil_div x c < x + c.
Proof.
  intros Hc. unfold ceil_div.
  pose proof (Z.div_mod (x + c - 1) c ltac:(lia)) as E.
  pose proof (Z.mod_pos_bound (x + c - 1) c ltac:(lia)) as B.
  lia.
Qed.

Lemma ceil_div_le (x c : Z) : 1 <= c -> 0 <= x -> ceil_div x c <= x.
Proof.
  intros Hc Hx. pose proof (ceil_div_bounds x c Hc) as B.
  destruct (Z.eq_dec x 0) as [->|Hne].
  - apply ceil_div_nonpos; lia.
  - nia.
Qed.

(** ** The loop of [chunks] *)

Lemma raw_slices_S (start c : Z) (m : nat) :
  raw_slices start c (S m) = (start, start + c) :: raw_slices (start + c) c m.
Proof.
  unfold raw_slices. rewrite <- cons_seq, <- seq_shift. simpl.
  rewrite map_map. f_equal.
  - f_equal; ring.
  - apply map_ext. intros k. rewrite Nat2Z.inj_succ. f_equal; ring.
Qed.

Lemma chunk_slices_closed (c : Z) (Hc : 1 <= c) (n : Z) (fuel : nat) :
  forall start,
    (Z.to_nat (ceil_div (n - start) c) < fuel)%nat ->
    chunk_slices fuel start n c
    = Some (raw_slices start c (Z.to_nat (ceil_div (n - start) c))).
Proof.
  induction fuel as [|fuel IH]; intros start Hfuel; [lia|].
  simpl. destruct (start <? n) eqn:Hlt.
  - apply Z.ltb_lt in Hlt.
    pose proof (ceil_div_pos (n - start) c Hc ltac:(lia)) as Hpos.
    pose proof (ceil_div_step (n - start) c Hc) as Hstep.
    replace (n - start - c) with (n - (start + c)) in Hstep by ring.
    assert (Hm : Z.to_nat (ceil_div (n - start) c)
                 = S (Z.to_nat (ceil_div (n - (start + c)) c))) by lia.
    rewrite IH by lia. simpl. rewrite Hm, raw_slices_S. reflexivity.
  - apply Z.ltb_ge in Hlt.
    pose proof (ceil_div_nonpos (n - start) c Hc ltac:(lia)) as Hle.
    replace (Z.to_nat (ceil_div (n - start) c)) with 0%nat by lia.
    reflexivity.
Qed.

Lemma chunk_slices_terminates (n c : Z) :
  0 <= n -> 1 <= c ->
  chunk_slices (chunk_fuel n) 0 n c
  = Some (raw_slices 0 c (Z.to_nat (ceil_div n c))).
Proof.
  intros Hn Hc.
  pose proof (chunk_slices_closed c Hc n (chunk_fuel n) 0) as H.
  rewrite Z.sub_0_r in H. apply H.
  unfold chunk_fuel. pose proof (ceil_div_le n c Hc Hn). lia.
Qed.

Lemma plan_clips_raw (L c : Z) :
  0 <= L -> 1 <= c ->
  map (slice_indices L) (raw_slices 0 c (Z.to_nat (ceil_div L c))) = plan L c.
Proof.
  intros HL Hc. unfold raw_slices, plan. rewrite map_map.
  apply map_ext_in. intros k Hk. apply in_seq in Hk.
  pose proof (ceil_div_bounds L c Hc) as B.
  unfold slice_indices, clip. cbn [fst snd]. rewrite !Z.add_0_l.
  assert (Hk' : Z.of_nat k + 1 <= ceil_div L c) by lia.
  assert (c * Z.of_nat k < L) by nia.
  destruct (c * Z.of_nat k <? 0) eqn:E1; [apply Z.ltb_lt in E1; nia|].
  destruct (c * (Z.of_nat k + 1) <? 0) eqn:E2; [apply Z.ltb_lt in E2; nia|].
  f_equal; lia.
Qed.

Lemma chunk_ranges_plan (L c : Z) :
  0 <= L -> 1 <= c -> chunk_ranges L c = Some (plan L c).
Proof.
  intros HL Hc. unfold chunk_ranges.
  rewrite chunk_slices_terminates by assumption. simpl.
  now rewrite plan_clips_raw.
Qed.

(** A chunk size that does not advance never lets the loop end. *)
Lemma chunk_slices_diverges (n c : Z) (fuel : nat) :
  c <= 0 -> forall start, start < n -> chunk_slices fuel start n c = None.
Proof.
  intros Hc. induction fuel as [|fuel IH]; intros start Hs; [reflexivity|].
  simpl. destruct (start <? n) eqn:E; [|apply Z.ltb_ge in E; lia].
  rewrite IH by lia. reflexivity.
Qed.

Lemma plan_nth (L c : Z) (k : nat) (r : Z * Z) :
  nth_error (plan L c) k = Some r ->
  (k < Z.to_nat (ceil_div L c))%nat /\
  r = (c * Z.of_nat k, Z.min (c * (Z.of_nat k + 1)) L).
Proof.
  unfold plan. intros H.
  assert (Hk : (k < Z.to_nat (ceil_div L c))%nat).
  { assert (Hs : nth_error
                   (map (fun k => (c * Z.of_nat k,
                                   Z.min (c * (Z.of_nat k + 1)) L))
                        (seq 0 (Z.to_nat (ceil_div L c)))) k <> None)
      by congruence.
    apply nth_error_Some in Hs. now rewrite length_map, length_seq in Hs. }
  split; [assumption|].
  rewrite nth_error_map, nth_error_seq in H.
  destruct (Nat.ltb_spec k (Z.to_nat (ceil_div L c))); [|lia].
  simpl in H. congruence.
Qed.

Lemma plan_length (L c : Z) :
  1 <= c -> 0 <= L -> Z.of_nat (length (plan L c)) = ceil_div L c.
Proof.
  intros Hc HL. unfold plan. rewrite length_map, length_seq.
  destruct (Z.eq_dec L 0) as [->|Hne].
  - pose proof (ceil_div_nonpos 0 c Hc ltac:(lia)). 
    pose proof (ceil_div_bounds 0 c Hc). nia.
  - pose proof (ceil_div_pos L c Hc ltac:(lia)). lia.
Qed.

Lemma plan_range (L c : Z) (k : nat) :
  1 <= c -> 0 <= L -> (k < Z.to_nat (ceil_div L c))%nat ->
  0 <= c * Z.of_nat k < L.
Proof.
  intros Hc HL Hk. pose proof (ceil_div_bounds L c Hc). nia.
Qed.

Lemma plan_In (L c : Z) (r : Z * Z) :
  In r (plan L c) <->
  exists k, (k < Z.to_nat (ceil_div L c))%nat /\
            r = (c * Z.of_nat k, Z.min (c * (Z.of_nat k + 1)) L).
Proof.
  unfold plan. rewrite in_map_iff. split.
  - intros (k & <- & Hk). apply in_seq in Hk. exists k.
    split; [lia|reflexivity].
  - intros (k & Hk & ->). exists k. split; [reflexivity|]. apply in_seq. lia.
Qed.

(** C2. For every source length [L >= 0] and chunk size [c >= 1] the loop of
    [chunks] ends, and the ranges its slices cover are exactly [ceil(L / c)]
    half-open ranges, each non-empty, inside [0, L) and at most [c] long,
    every one but the last exactly [c] long, in ascending order without
    overlap, whose union is [0, L); for [L = 0] there is none. *)
Theorem chunks_plan_covers (L c : Z) :
  0 <= L -> 1 <= c ->
  exists rs,
    chunk_ranges L c = Some rs /\
    Z.of_nat (length rs) = ceil_div L c /\
    L <= c * ceil_div L c < L + c /\
    (forall r, In r rs ->
               0 <= fst r < snd r /\ snd r <= L /\ snd r - fst r <= c) /\
    (forall i r, nth_error rs i = Some r -> (S i < length rs)%nat ->
                 snd r - fst r = c) /\
    (forall i j ri rj, (i < j)%nat -> nth_error rs i = Some ri ->
                       nth_error rs j = Some rj -> snd ri <= fst rj) /\
    (forall x, 0 <= x < L <-> exists r, In r rs /\ in_range r x) /\
    (L = 0 -> rs = []).
Proof.
  intros HL Hc. exists (plan L c).
  pose proof (ceil_div_bounds L c Hc) as B.
  pose proof (plan_length L c Hc HL) as Hlen.
  split; [now apply chunk_ranges_plan|].
  split; [assumption|]. split; [assumption|].
  split; [|split; [|split; [|split]]].
  - intros r Hr. apply plan_In in Hr. destruct Hr as (k & Hk & ->).
    pose proof (plan_range L c k Hc HL Hk). cbn [fst snd]. lia.
  - intros i r Hi Hlast. apply plan_nth in Hi. destruct Hi as [Hk ->].
    cbn [fst snd]. nia.
  - intros i j ri rj Hij Hi Hj.
    apply plan_nth in Hi, Hj. destruct Hi as [_ ->], Hj as [_ ->].
    cbn [fst snd]. nia.
  - intros x. split.
    + intros Hx.
      pose proof (Z.div_mod x c ltac:(lia)) as E.
      pose proof (Z.mod_pos_bound x c ltac:(lia)) as M.
      assert (Hq : 0 <= x / c) by (apply Z.div_pos; lia).
      exists (c * (x / c), Z.min (c * (x / c + 1)) L). split.
      * apply plan_In. exists (Z.to_nat (x / c)).
        rewrite Z2Nat.id by assumption. split; [nia|reflexivity].
      * unfold in_range. cbn [fst snd]. lia.
    + intros (r & Hr & Hx). apply plan_In in Hr. destruct Hr as (k & Hk & ->).
      pose proof (plan_range L c k Hc HL Hk).
      unfold in_range in Hx. cbn [fst snd] in Hx. lia.
  - intros ->. unfold plan.
    replace (Z.to_nat (ceil_div 0 c)) with 0%nat; [reflexivity|].
    pose proof (ceil_div_nonpos 0 c Hc ltac:(lia)). lia.
Qed.

Lemma chunks_plan_covers_witness :
  chunk_ranges 10 3 = Some [(0, 3); (3, 6); (6, 9); (9, 10)] /\
  exists rs, chunk_ranges 10 3 = Some rs /\ Z.of_nat (length rs) = 4.
Proof.
  split; [reflexivity|].
  destruct (chunks_plan_covers 10 3 ltac:(lia) ltac:(lia))
    as (rs & Hrs & Hlen & _).
  exists rs. split; [exact Hrs|exact Hlen].
Defined.

Section SlicesCover.

Context {A : Type}.

Lemma len_nonneg (b : list A) : 0 <= len b.
Proof. unfold len. lia. Qed.

Lemma clip_clip (n i : Z) : 0 <= n -> clip n (clip n i) = clip n i.
Proof.
  intros Hn. unfold clip.
  destruct (i <? 0) eqn:E.
  - destruct (Z.max 0 (i + n) <? 0) eqn:E'; [apply Z.ltb_lt in E'; lia|].
    apply Z.ltb_lt in E. lia.
  - apply Z.ltb_ge in E.
    destruct (Z.min i n <? 0) eqn:E'; [apply Z.ltb_lt in E'; lia|]. lia.
Qed.

Lemma getslice_clipped (b : list A) (s : Z * Z) :
  getslice b (fst (slice_indices (len b) s)) (snd (slice_indices (len b) s))
  = getslice b (fst s) (snd s).
Proof.
  unfold getslice, slice_indices. cbn [fst snd].
  now rewrite !clip_clip by apply len_nonneg.
Qed.

Lemma getslice_step (b : list A) (start c : Z) :
  0 <= start -> 1 <= c ->
  getslice b start (start + c) ++ skipn (Z.to_nat (start + c)) b
  = skipn (Z.to_nat start) b.
Proof.
  intros Hs Hc. pose proof (len_nonneg b) as Hn.
  unfold getslice, slice_indices, clip. cbn [fst snd].
  destruct (start <? 0) eqn:E1; [apply Z.ltb_lt in E1; lia|].
  destruct (start + c <? 0) eqn:E2; [apply Z.ltb_lt in E2; lia|].
  destruct (Z_lt_le_dec start (len b)) as [Hlt|Hge].
  - rewrite (Z.min_l start) by lia.
    rewrite <- (firstn_skipn (Z.to_nat (Z.min (start + c) (len b) - start))
                             (skipn (Z.to_nat start) b)) at 2.
    f_equal. rewrite skipn_skipn.
    destruct (Z_lt_le_dec (start + c) (len b)) as [Hlt'|Hge'].
    + f_equal. lia.
    + rewrite !skipn_all2; [reflexivity| |]; unfold len in *; lia.
  - rewrite !skipn_all2 by (unfold len in *; lia).
    now rewrite firstn_nil.
Qed.

Lemma raw_slices_concat (b : list A) (c : Z) (Hc : 1 <= c) (m : nat) :
  forall start, 0 <= start ->
    m = Z.to_nat (ceil_div (len b - start) c) ->
    concat (slices_of b (raw_slices start c m)) = skipn (Z.to_nat start) b.
Proof.
  induction m as [|m IH]; intros start Hs Hm.
  - simpl. symmetry. apply skipn_all2.
    pose proof (ceil_div_bounds (len b - start) c Hc). unfold len in *. nia.
  - rewrite raw_slices_S. unfold slices_of in *. cbn [map concat fst snd].
    rewrite IH; [now apply getslice_step|lia|].
    pose proof (ceil_div_step (len b - start) c Hc) as Hstep.
    replace (len b - start - c) with (len b - (start + c)) in Hstep by ring.
    lia.
Qed.

Lemma chunks_closed (b : list A) (c : Z) :
  1 <= c ->
  chunks b c
  = Some (slices_of b (raw_slices 0 c (Z.to_nat (ceil_div (len b) c)))).
Proof.
  intros Hc. unfold chunks.
  now rewrite chunk_slices_terminates by (apply len_nonneg || assumption).
Qed.

Lemma chunks_concat (b : list A) (c : Z) :
  1 <= c -> exists cs, chunks b c = Some cs /\ concat cs = b.
Proof.
  intros Hc. eexists. split; [now apply chunks_closed|].
  rewrite (raw_slices_concat b c Hc _ 0); [reflexivity|lia|].
  now rewrite Z.sub_0_r.
Qed.

Lemma plan_slices (b : list A) (c : Z) :
  1 <= c ->
  slices_of b (plan (len b) c)
  = slices_of b (raw_slices 0 c (Z.to_nat (ceil_div (len b) c))).
Proof.
  intros Hc. rewrite <- plan_clips_raw by (apply len_nonneg || assumption).
  unfold slices_of. rewrite map_map. apply map_ext. intros s.
  apply getslice_clipped.
Qed.

Lemma plan_concat (b : list A) (c : Z) :
  1 <= c -> concat (slices_of b (plan (len b) c)) = b.
Proof.
  intros Hc. rewrite plan_slices by assumption.
  rewrite (raw_slices_concat b c Hc _ 0); [reflexivity|lia|].
  now rewrite Z.sub_0_r.
Qed.

End SlicesCover.

(** X4. For a chunk size of at least 1, the chunk that [chunks] yields at
    turn [k] is what [get_chunk(b, k)] returns. *)
Lemma chunks_nth_get_chunk {A} (b : list A) (c : Z) (cs : list (list A))
      (k : nat) :
  1 <= c -> chunks b c = Some cs -> (k < length cs)%nat ->
  nth_error cs k = Some (get_chunk b (Z.of_nat k) c).
Proof.
  intros Hc Hcs Hk. rewrite chunks_closed in Hcs by assumption.
  injection Hcs as <-. unfold slices_of, raw_slices in *.
  rewrite !length_map, length_seq in Hk.
  rewrite !nth_error_map, nth_error_seq.
  destruct (Nat.ltb_spec k (Z.to_nat (ceil_div (len b) c))); [|lia].
  cbn [option_map fst snd]. unfold get_chunk. rewrite !Z.add_0_l. reflexivity.
Qed.


(* ================================================================== *)
(** ** Exact sums *)

Lemma fold_left_fadd_exact (xs : list Qc) (a : Qc) :
  fold_left (fadd exact) xs a = (a + Qc_sum xs)%Qc.
Proof.
  revert a. induction xs as [|x xs IH]; intros a; simpl.
  - ring.
  - rewrite IH. unfold fadd, exact. ring.
Qed.

Lemma sum_from_zero_exact (xs : list Qc) : sum_from_zero exact xs = Qc_sum xs.
Proof.
  destruct xs as [|x xs]; [reflexivity|].
  simpl. rewrite fold_left_fadd_exact. reflexivity.
Qed.

Lemma Qc_sum_app (xs ys : list Qc) :
  Qc_sum (xs ++ ys) = (Qc_sum xs + Qc_sum ys)%Qc.
Proof.
  induction xs as [|x xs IH]; simpl; [ring|rewrite IH; ring].
Qed.

Lemma Qc_sum_concat (f : list Qc -> Qc) (g : Qc -> Qc) (css : list (list Qc)) :
  (forall cs, f cs = Qc_sum (map g cs)) ->
  Qc_sum (map f css) = Qc_sum (map g (concat css)).
Proof.
  intros Hf. induction css as [|cs css IH]; simpl; [reflexivity|].
  rewrite map_app, Qc_sum_app, IH, Hf. reflexivity.
Qed.

Lemma np_mul_self_exact (c : list Qc) :
  np_mul exact c c = map (fun x => x * x)%Qc c.
Proof.
  unfold np_mul. induction c as [|x c IH]; simpl; [reflexivity|].
  now rewrite IH.
Qed.

Lemma Z2Qc_eq0 (z : Z) : Z2Qc z = 0%Qc <-> z = 0.
Proof.
  unfold Z2Qc. split.
  - intros H. apply (f_equal this) in H. simpl in H.
    unfold Qred in H. simpl in H. 
    destruct (Z.ggcd z 1) as [g [a b]] eqn:E.
    pose proof (Z.ggcd_correct_divisors z 1) as D. rewrite E in D.
    pose proof (Z.ggcd_gcd z 1) as G. rewrite E in G. simpl in G.
    rewrite Z.gcd_1_r in G. subst g. destruct D as [D1 D2].
    injection H as H1 H2. lia.
  - intros ->. reflexivity.
Qed.


Lemma np_truediv_exact (x : Qc) (d : Z) :
  np_truediv exact x d = ieee_div x (Z2Qc d).
Proof.
  unfold np_truediv, ieee_div, exact.
  destruct (Z.eqb_spec d 0) as [->|Hd].
  - destruct (Qc_eq_dec (Z2Qc 0) 0%Qc) as [_|H]; [reflexivity|].
    exfalso. apply H. reflexivity.
  - destruct (Qc_eq_dec (Z2Qc d) 0%Qc) as [H|_]; [|reflexivity].
    apply Z2Qc_eq0 in H. contradiction.
Qed.

Lemma default_chunksize_pos : 1 <= default_chunksize.
Proof. unfold default_chunksize. lia. Qed.

Lemma var_exact_formula (expr : Expr) (ba : carray) :
  1 <= len (items ba) ->
  compute_up_var exact expr ba
  = wrap (keepdims expr)
         (VFloat (variance_formula (unbiased expr) (items ba))).
Proof.
  intros Hn. unfold compute_up_var.
  rewrite (chunks_closed (items ba) default_chunksize default_chunksize_pos).
  cbn [of_option bind].
  unfold py_truediv.
  destruct (Z.eqb_spec (len (items ba)) 0) as [E|_]; [lia|].
  cbn [bind]. f_equal. f_equal.
  rewrite np_truediv_exact. unfold variance_formula.
  replace (Z.b2z (unbiased expr)) with (if unbiased expr then 1 else 0)
    by (destruct (unbiased expr); reflexivity).
  f_equal. unfold fsub, fmul, exact, builtins_sum, np_sum.
  rewrite !sum_from_zero_exact.
  rewrite (Qc_sum_concat _ (fun x => x * x)%Qc).
  - rewrite (raw_slices_concat (items ba) default_chunksize
                               default_chunksize_pos _ 0);
      [reflexivity|lia|now rewrite Z.sub_0_r].
  - intros cs. now rewrite sum_from_zero_exact, np_mul_self_exact.
Qed.






(** The scenario of section 8: the unbiased variance of 1..10 is 55/6. *)
Example variance_one_to_ten :
  variance_formula true (map Z2Qc [1; 2; 3; 4; 5; 6; 7; 8; 9; 10])
  = Fin (Q2Qc (55 # 6)).
Proof.
  unfold variance_formula, ieee_div.
  destruct (Qc_eq_dec _ _) as [E|_]; [discriminate E|].
  f_equal. apply Qc_is_canon. reflexivity.
Qed.

(* ------------------------------------------------------------------ *)
(** ** Standard deviation *)

Lemma math_sqrt_negative (fsqrt : Qc -> Qc) (v : fl) :
  math_sqrt fsqrt v
  = if fl_negative v then Raise ValueError else Ok (fl_sqrt fsqrt v).
Proof.
  destruct v as [q| | |]; reflexivity.
Qed.

(** Without [keepdims] the variance is a float or the division by the
    length raises. *)
Lemma var_scalar_or_zero_division (rnd : Qc -> Qc) (expr : Expr) (ba : carray) :
  keepdims expr = false ->
  (items ba = [] /\ compute_up_var rnd expr ba = Raise ZeroDivisionError) \/
  (exists v, compute_up_var rnd expr ba = Ok (VFloat v)).
Proof.
  intros Hk. unfold compute_up_var.
  rewrite (chunks_closed (items ba) default_chunksize default_chunksize_pos).
  cbn [of_option bind]. unfold py_truediv.
  destruct (Z.eqb_spec (len (items ba)) 0) as [E|E].
  - left. split; [|reflexivity].
    unfold len in E. destruct (items ba); [reflexivity|discriminate].
  - right. cbn [bind]. rewrite Hk. eexists. reflexivity.
Qed.

Lemma std_after_var (rnd fsqrt : Qc -> Qc) (expr : Expr) (ba : carray)
      (v : fl) :
  compute_up_var rnd (child_var expr) ba = Ok (VFloat v) ->
  compute_up_std rnd fsqrt expr ba
  = if fl_negative v then Raise ValueError
    else wrap (keepdims expr) (VFloat (fl_sqrt fsqrt v)).
Proof.
  intros Hv. unfold compute_up_std. rewrite Hv. cbn [bind math_sqrt_value].
  rewrite math_sqrt_negative. now destruct (fl_negative v).
Qed.

(** C4. Whenever the variance computation returns a number [v], the standard
    deviation is [math.sqrt(v)]: a [ValueError] (math domain error) when [v]
    is negative, whatever rounding produced it, and otherwise the square root
    of [v], wrapped by [keepdims].  A negative variance is never turned into
    NaN. *)
Theorem std_sqrt_of_variance (rnd fsqrt : Qc -> Qc) (expr : Expr)
        (ba : carray) (v : fl) :
  compute_up_var rnd (child_var expr) ba = Ok (VFloat v) ->
  compute_up_std rnd fsqrt expr ba
  = if fl_negative v then Raise ValueError
    else wrap (keepdims expr) (VFloat (fl_sqrt fsqrt v)).
Proof.
  exact (std_after_var rnd fsqrt expr ba v).
Qed.

Lemma std_sqrt_of_variance_witness :
  let data := mk_carray [Q2Qc (1 # 5); Q2Qc (1 # 5)] 16 in
  let expr := Node Cls.std (mk_attrs "" 0 false true 0) [Symbol "t"] in
  compute_up_var round_tenths (child_var expr) data
  = Ok (VFloat (Fin (Q2Qc (-1 # 10)))) /\
  compute_up_std round_tenths sqrt_fix expr data = Raise ValueError.
Proof.
  intros data expr.
  assert (H : compute_up_var round_tenths (child_var expr) data
              = Ok (VFloat (Fin (Q2Qc (-1 # 10))))).
  { vm_compute. reflexivity. }
  split; [exact H|].
  exact (std_sqrt_of_variance round_tenths sqrt_fix expr data _ H).
Defined.

(** The standard deviation of a carray is the square root of its variance
    or the error of the variance. *)
Lemma std_of_var (rnd fsqrt : Qc -> Qc) (expr : Expr) (ba : carray) :
  (items ba = [] /\ compute_up_std rnd fsqrt expr ba = Raise ZeroDivisionError)
  \/ (exists v, compute_up_var rnd (child_var expr) ba = Ok (VFloat v) /\
                compute_up_std rnd fsqrt expr ba
                = if fl_negative v then Raise ValueError
                  else wrap (keepdims expr) (VFloat (fl_sqrt fsqrt v))).
Proof.
  destruct (var_scalar_or_zero_division rnd (child_var expr) ba eq_refl)
    as [[He Hv]|[v Hv]].
  - left. split; [assumption|]. unfold compute_up_std. now rewrite Hv.
  - right. exists v. split; [assumption|].
    now apply std_after_var.
Qed.

(* ------------------------------------------------------------------ *)
(** ** The empty dataset *)

(** C9, as the code has it. Over an empty carray, count returns 0 and sum
    returns 0.0; the variance and the standard deviation raise
    [ZeroDivisionError], since they divide a Python float by the length; the
    mean divides a numpy scalar by the length and returns NaN without
    raising.  [keepdims] wraps the results that are returned. *)
Theorem empty_dataset_reductions (rnd fsqrt : Qc -> Qc) (expr : Expr)
        (ba : carray) :
  items ba = [] ->
  compute_up_count expr (Carray ba) = wrap (keepdims expr) (VInt 0) /\
  compute_up_sum rnd expr ba = wrap (keepdims expr) (VFloat (Fin 0%Qc)) /\
  compute_up_var rnd expr ba = Raise ZeroDivisionError /\
  compute_up_std rnd fsqrt expr ba = Raise ZeroDivisionError /\
  compute_up_mean rnd expr ba = wrap (keepdims expr) (VFloat NaN).
Proof.
  intros He.
  unfold compute_up_count, compute_up_sum, compute_up_std, compute_up_var,
    compute_up_mean, bcolz_len.
  rewrite !He. repeat split; reflexivity.
Qed.

Lemma empty_dataset_reductions_witness :
  let ba := mk_carray [] 0 in
  let expr := Node Cls.mean no_attrs [Symbol "t"] in
  compute_up_count expr (Carray ba) = Ok (VInt 0) /\
  compute_up_var exact expr ba = Raise ZeroDivisionError /\
  compute_up_mean exact expr ba = Ok (VFloat NaN).
Proof.
  intros ba expr.
  destruct (empty_dataset_reductions exact sqrt_fix expr ba eq_refl)
    as (Hc & _ & Hv & _ & Hm).
  exact (conj Hc (conj Hv Hm)).
Defined.

(** C9 as stated fails for the mean: over an empty carray it returns NaN,
    it raises nothing. *)
Lemma mean_of_empty_is_nan :
  let ba := mk_carray [] 0 in
  let expr := Node Cls.mean no_attrs [Symbol "t"] in
  compute_up_mean exact expr ba = Ok (VFloat NaN) /\
  forall e, compute_up_mean exact expr ba <> Raise e.
Proof.
  split; [reflexivity|]. intros e. discriminate.
Qed.

(* ================================================================== *)
(** ** Dispatch *)

Lemma kind_eqb_eq (a b : kind) : kind_eqb a b = true <-> a = b.
Proof. destruct a, b; simpl; split; congruence. Qed.

Lemma find_unique {A} (p : A -> bool) (l : list A) (x : A) :
  In x l -> p x = true -> (forall y, In y l -> p y = true -> y = x) ->
  find p l = Some x.
Proof.
  intros Hin Hp Huniq. destruct (find p l) as [y|] eqn:E.
  - apply find_some in E. destruct E as [Hy Hpy]. f_equal. now apply Huniq.
  - apply (find_none _ _ E) in Hin. congruence.
Qed.

Section ResolveExact.

Variable subclass : Cls.t -> Cls.t -> bool.
Hypothesis subclass_refl : forall a, subclass a a = true.
Hypothesis subclass_antisym :
  forall a b, subclass a b = true -> subclass b a = true -> a = b.

(** A signature registered for exactly the class and kind of the call is the
    one that runs. *)
Lemma resolve_exact (funcs : list (signature * impl)) (c : Cls.t) (k : kind)
      (f : impl) :
  In ((c, k), f) funcs ->
  (forall e, In e funcs -> fst e = (c, k) -> e = ((c, k), f)) ->
  resolve subclass funcs c k = Some f.
Proof.
  intros Hin Hkey. unfold resolve.
  rewrite (find_unique _ funcs ((c, k), f)); [reflexivity|assumption| |].
  - unfold most_specific, accepts. cbn [fst snd].
    rewrite subclass_refl. rewrite (proj2 (kind_eqb_eq k k) eq_refl).
    cbn [andb]. apply forallb_forall. intros [[c' k'] g] _. cbn [fst snd].
    destruct (subclass c c'); [|reflexivity].
    destruct (kind_eqb k k'); reflexivity.
  - intros [[c' k'] g] Hy Hp. apply Hkey; [assumption|].
    unfold most_specific, accepts in Hp. cbn [fst snd] in Hp.
    apply andb_true_iff in Hp. destruct Hp as [Hacc Hall].
    apply andb_true_iff in Hacc. destruct Hacc as [Hsub Hk].
    apply kind_eqb_eq in Hk. subst k'.
    rewrite forallb_forall in Hall. specialize (Hall _ Hin).
    cbn [fst snd] in Hall.
    rewrite subclass_refl, (proj2 (kind_eqb_eq k k) eq_refl) in Hall.
    cbn [andb implb] in Hall.
    cbn [fst]. f_equal. symmetry. now apply subclass_antisym.
Qed.

End ResolveExact.

Ltac registered_once :=
  let e := fresh "e" in
  let He := fresh "He" in
  let Hk := fresh "Hk" in
  intros e He Hk; unfold compute_up_funcs in He; simpl in He;
  repeat (destruct He as [<-|He]; [try discriminate Hk; try reflexivity|]);
  contradiction.

Lemma registered_ReLabel (c : Cls.t) (k : kind) :
  c = Cls.ReLabel \/ c = Cls.Label ->
  In ((c, k), up_ReLabel) compute_up_funcs /\
  (forall e, In e compute_up_funcs -> fst e = (c, k) ->
             e = ((c, k), up_ReLabel)).
Proof.
  intros [-> | ->]; destruct k; (split; [simpl; tauto|registered_once]).
Qed.

Lemma registered_Selection :
  In ((Cls.Selection, ctable_t), up_Selection) compute_up_funcs /\
  (forall e, In e compute_up_funcs -> fst e = (Cls.Selection, ctable_t) ->
             e = ((Cls.Selection, ctable_t), up_Selection)).
Proof.
  split; [simpl; tauto|registered_once].
Qed.

Lemma blaze_subclass_refl (a : Cls.t) : blaze_subclass a a = true.
Proof. destruct a; reflexivity. Qed.

Lemma blaze_subclass_antisym (a b : Cls.t) :
  blaze_subclass a b = true -> blaze_subclass b a = true -> a = b.
Proof. destruct a, b; cbv; intros; congruence. Qed.

(** C10. Whatever the class hierarchy, the sources of available memory, the
    other backends and the data are, [compute_up] on an expression of class
    [ReLabel] or [Label] over a carray or a ctable dispatches to the body of
    lines 139-141 and raises [NotImplementedError], reading nothing. *)
Theorem relabel_not_implemented
        (subclass : Cls.t -> Cls.t -> bool) (rnd fsqrt : Qc -> Qc)
        (available_memory : nat -> Z)
        (compute_up_memory compute_up_Iterator : Expr -> value -> result value)
        (compute_up_ChunkIndexable : Expr -> bcolz -> result value)
        (eval_str : Expr -> result string)
        (ctable_where : ctable -> string -> result value)
        (compute_up_indexing : impl -> Expr -> bcolz -> result value)
        (expr : Expr) (data : bcolz) (reads : nat) :
  (forall a, subclass a a = true) ->
  (forall a b, subclass a b = true -> subclass b a = true -> a = b) ->
  cls_of expr = Cls.ReLabel \/ cls_of expr = Cls.Label ->
  resolve subclass compute_up_funcs (cls_of expr) (kind_of data)
  = Some up_ReLabel /\
  compute_up subclass rnd fsqrt available_memory compute_up_memory
             compute_up_Iterator compute_up_ChunkIndexable eval_str
             ctable_where compute_up_indexing expr data reads
  = (Raise NotImplementedError, reads).
Proof.
  intros Hrefl Hanti Hcls.
  destruct (registered_ReLabel (cls_of expr) (kind_of data) Hcls) as [Hin Hkey].
  pose proof (resolve_exact subclass Hrefl Hanti compute_up_funcs
                            (cls_of expr) (kind_of data) up_ReLabel Hin Hkey)
    as Hres.
  split; [assumption|].
  unfold compute_up. rewrite Hres. reflexivity.
Qed.

Lemma relabel_not_implemented_witness :
  let expr := Node Cls.Label (mk_attrs "price" 0 false false 0) [Symbol "t"] in
  let data := Carray (mk_carray [Z2Qc 1; Z2Qc 2] 16) in
  compute_up blaze_subclass exact sqrt_fix (fun _ => 1000)
             (fun _ v => Ok v) (fun _ v => Ok v) (fun _ _ => Ok (VInt 0))
             (fun _ => Ok ""%string) (fun _ _ => Ok (VInt 0))
             (fun _ _ _ => Ok (VInt 0)) expr data 0%nat
  = (Raise NotImplementedError, 0%nat).
Proof.
  intros expr data.
  exact (proj2 (relabel_not_implemented
                  blaze_subclass exact sqrt_fix (fun _ => 1000)
                  (fun _ v => Ok v) (fun _ v => Ok v) (fun _ _ => Ok (VInt 0))
                  (fun _ => Ok ""%string) (fun _ _ => Ok (VInt 0))
                  (fun _ _ _ => Ok (VInt 0)) expr data 0%nat
                  blaze_subclass_refl blaze_subclass_antisym
                  (or_intror eq_refl))).
Defined.

(* ================================================================== *)
(** ** The memory policy *)

Lemma Qc_ltb_lt (x y : Qc) : Qc_ltb x y = true <-> (x < y)%Qc.
Proof.
  unfold Qc_ltb, Qclt, Qccompare. rewrite Qlt_alt.
  destruct (this x ?= this y)%Q; split; congruence.
Qed.

(** [nb < avail / 4] in true division is [4 * nb < avail]. *)
Lemma comfortable_spec (nb avail : Z) :
  comfortable nb avail = true <-> 4 * nb < avail.
Proof.
  unfold comfortable. rewrite Qc_ltb_lt. unfold Qclt, Z2Qc.
  unfold Qcdiv, Qcmult, Qcinv, Q2Qc. cbn [this].
  rewrite !Qred_correct, (Z.mul_comm 4 nb). unfold Qlt. simpl. lia.
Qed.

Section MemoryDecisions.

Variable available_memory : nat -> Z.
Variable compute_up_memory : Expr -> value -> result value.
Variable compute_up_Iterator : Expr -> value -> result value.
Variable compute_up_ChunkIndexable : Expr -> bcolz -> result value.
Variable eval_str : Expr -> result string.
Variable ctable_where : ctable -> string -> result value.

(** Lines 144-149 decide on the reading taken at the call, and take one
    reading per call. *)
Lemma in_memory_or_stream_decides (expr : Expr) (data : bcolz) (reads : nat) :
  compute_up_in_memory_or_stream available_memory compute_up_memory
                                 compute_up_Iterator expr data reads
  = (if 4 * nbytes data <? available_memory reads
     then compute_up_memory expr (materialize data)
     else compute_up_Iterator expr (into_Iterator data),
     S reads).
Proof.
  unfold compute_up_in_memory_or_stream, mbind, fits_in_memory, pure.
  destruct (comfortable _ _) eqn:E.
  - apply comfortable_spec in E. apply Z.ltb_lt in E. now rewrite E.
  - destruct (Z.ltb_spec (4 * nbytes data) (available_memory reads)) as [H|H];
      [|reflexivity].
    apply comfortable_spec in H. congruence.
Qed.

(** So do lines 73-77 for a selection over a ctable. *)
Lemma selection_decides (expr : Expr) (data : ctable) (reads : nat) :
  compute_up_Selection available_memory compute_up_memory
                       compute_up_Iterator expr data reads
  = (if 4 * ct_nbytes data <? available_memory reads
     then compute_up_memory expr (materialize (Ctable data))
     else compute_up_Iterator expr (into_Iterator (Ctable data)),
     S reads).
Proof.
  unfold compute_up_Selection, mbind, fits_in_memory, pure. cbn [nbytes].
  destruct (comfortable _ _) eqn:E.
  - apply comfortable_spec in E. apply Z.ltb_lt in E. now rewrite E.
  - destruct (Z.ltb_spec (4 * ct_nbytes data) (available_memory reads))
      as [H|H]; [|reflexivity].
    apply comfortable_spec in H. congruence.
Qed.

(** X15. The decision is not remembered: two calls in a row read the
    available memory twice, and the second call decides on the second
    reading, whatever the first one decided. *)
Lemma decisions_not_memoized (e1 e2 : Expr) (d1 d2 : bcolz) (reads : nat) :
  let step1 := compute_up_in_memory_or_stream available_memory
                 compute_up_memory compute_up_Iterator e1 d1 reads in
  let step2 := compute_up_in_memory_or_stream available_memory
                 compute_up_memory compute_up_Iterator e2 d2 (snd step1) in
  snd step2 = S (S reads) /\
  fst step2 = if 4 * nbytes d2 <? available_memory (S reads)
              then compute_up_memory e2 (materialize d2)
              else compute_up_Iterator e2 (into_Iterator d2).
Proof.
  intros step1 step2. subst step1 step2.
  rewrite !in_memory_or_stream_decides. cbn [fst snd]. split; reflexivity.
Qed.

(** C5, where the code departs from it. A generic reduction over data that
    fits in memory, [4 * nbytes < available_memory()], evaluates in memory
    and then, the chunked evaluation not being under an [else], returns what
    the chunked evaluation returns, wrapped by [keepdims]. *)
Theorem reduction_runs_chunked (expr : Expr) (data : bcolz) (reads : nat)
        (v : value) :
  4 * nbytes data < available_memory reads ->
  compute_up_memory expr (materialize data) = Ok v ->
  compute_up_Reduction available_memory compute_up_memory
                       compute_up_ChunkIndexable expr data reads
  = (result <- compute_up_ChunkIndexable expr data ;;
     wrap (keepdims expr) result,
     S reads).
Proof.
  intros Hfit Hv. unfold compute_up_Reduction, mbind, fits_in_memory, pure.
  apply comfortable_spec in Hfit. rewrite Hfit, Hv. reflexivity.
Qed.

End MemoryDecisions.

Lemma reduction_runs_chunked_witness :
  let data := Carray (mk_carray [Z2Qc 1; Z2Qc 2] 16) in
  let expr := Node Cls.Reduction no_attrs [Symbol "t"] in
  4 * nbytes data < 1000 /\
  compute_up_Reduction (fun _ => 1000) (fun _ _ => Ok (VInt 1))
                       (fun _ _ => Ok (VInt 2)) expr data 0%nat
  = (Ok (VInt 2), 1%nat).
Proof.
  intros data expr.
  assert (H : 4 * nbytes data < 1000) by (vm_compute; reflexivity).
  split; [exact H|].
  exact (reduction_runs_chunked (fun _ => 1000) (fun _ _ => Ok (VInt 1))
                                (fun _ _ => Ok (VInt 2)) expr data 0%nat
                                (VInt 1) H eq_refl).
Defined.




(* ================================================================== *)
(** ** Expression trees *)

Section ExprInduction.

Variable P : Expr -> Prop.
Hypothesis step : forall c a inputs, Forall P inputs -> P (Node c a inputs).

Fixpoint Expr_nested_ind (e : Expr) : P e :=
  match e with
  | Node c a inputs =>
      step c a inputs
           ((fix all (l : list Expr) : Forall P l :=
               match l with
               | [] => Forall_nil P
               | x :: l' => Forall_cons x (Expr_nested_ind x) (all l')
               end) inputs)
  end.

End ExprInduction.

Lemma Cls_eqb_eq (a b : Cls.t) : Cls.eqb a b = true <-> a = b.
Proof.
  unfold Cls.eqb. destruct (Cls.eq_dec a b); split; congruence.
Qed.

Lemma attrs_eqb_eq (x y : attrs) : attrs_eqb x y = true <-> x = y.
Proof.
  destruct x as [n1 k1 d1 u1 f1], y as [n2 k2 d2 u2 f2].
  unfold attrs_eqb. cbn [a_name a_n a_keepdims a_unbiased a_fn].
  rewrite !andb_true_iff, String.eqb_eq, Z.eqb_eq, !Bool.eqb_true_iff,
    Nat.eqb_eq.
  split.
  - intros ((((-> & ->) & ->) & ->) & ->). reflexivity.
  - intros H. injection H as -> -> -> -> ->. repeat split.
Qed.

(** [isidentical] decides equality of trees. *)
Lemma isidentical_eq (x : Expr) : forall y, isidentical x y = true <-> x = y.
Proof.
  induction x as [c a inputs IH] using Expr_nested_ind.
  intros [c' a' inputs']. cbn [isidentical].
  rewrite !andb_true_iff, Cls_eqb_eq, attrs_eqb_eq.
  assert (Hall : forall l',
             (fix all2 (l1 l2 : list Expr) : bool :=
                match l1, l2 with
                | [], [] => true
                | u :: l1', v :: l2' => isidentical u v && all2 l1' l2'
                | _, _ => false
                end) inputs l' = true <-> inputs = l').
  { induction IH as [|u l Hu _ IHl]; intros [|v l'].
    - split; reflexivity.
    - split; discriminate.
    - split; discriminate.
    - rewrite andb_true_iff, Hu, IHl. split.
      + intros [-> ->]. reflexivity.
      + intros H. injection H as -> ->. split; reflexivity. }
  rewrite Hall. split.
  - intros [[-> ->] ->]. reflexivity.
  - intros H. injection H as -> -> ->. repeat split.
Qed.

Lemma isidentical_refl (x : Expr) : isidentical x x = true.
Proof. now apply isidentical_eq. Qed.

Lemma isidentical_sym (x y : Expr) : isidentical x y = isidentical y x.
Proof.
  destruct (isidentical x y) eqn:E1, (isidentical y x) eqn:E2;
    try reflexivity.
  - apply isidentical_eq in E1. subst. now rewrite isidentical_refl in E2.
  - apply isidentical_eq in E2. subst. now rewrite isidentical_refl in E1.
Qed.

Lemma occurs_In (b : Expr) (l : list Expr) :
  existsb (isidentical b) l = true <-> In b l.
Proof.
  rewrite existsb_exists. split.
  - intros (x & Hx & E). apply isidentical_eq in E. now subst.
  - intros H. exists b. split; [assumption|apply isidentical_refl].
Qed.

Lemma unique_from_incl (l seen : list Expr) (x : Expr) :
  In x (unique_from seen l) -> In x l.
Proof.
  revert seen. induction l as [|y l IH]; intros seen; simpl; [tauto|].
  destruct (existsb (isidentical y) seen).
  - intros H. right. now apply (IH seen).
  - intros [->|H]; [now left|]. right. now apply (IH (y :: seen)).
Qed.

Lemma leaves_below (e : Expr) :
  forall x, In x (_leaves e) -> In x (_traverse e).
Proof.
  induction e as [c a inputs IH] using Expr_nested_ind. intros x Hx.
  destruct inputs as [|i inputs].
  - simpl in Hx. destruct Hx as [<-|[]]. simpl. now left.
  - cbn [_leaves] in Hx. apply unique_from_incl in Hx.
    cbn [_traverse]. right.
    apply in_flat_map in Hx. destruct Hx as (child & Hchild & Hx).
    apply in_flat_map. exists child. split; [assumption|].
    rewrite Forall_forall in IH. now apply IH.
Qed.

Lemma last_default {A} (l : list A) (d d' : A) :
  l <> [] -> last l d = last l d'.
Proof.
  induction l as [|x l IH]; intros Hne; [congruence|].
  destruct l as [|y l]; [reflexivity|].
  cbn [last]. cbn [last] in IH. apply IH. discriminate.
Qed.

(** The generator of [path] ends when its target occurs under its start;
    it begins at the start and ends at the target. *)
Lemma path_ends (a : Expr) :
  forall b, In b (_traverse a) ->
            snd (path a b) = true /\
            hd_error (fst (path a b)) = Some a /\
            last (fst (path a b)) a = b.
Proof.
  induction a as [c at_ inputs IH] using Expr_nested_ind. intros b Hb.
  cbn [path]. destruct (isidentical (Node c at_ inputs) b) eqn:E.
  - apply isidentical_eq in E. subst b. repeat split; reflexivity.
  - cbn [_traverse] in Hb. destruct Hb as [Hb|Hb].
    { subst b. now rewrite isidentical_refl in E. }
    clear E. remember (Node c at_ inputs) as a0 eqn:Ea0. clear Ea0.
    induction IH as [|child l Hchild _ IHl].
    + destruct Hb.
    + cbn [flat_map] in Hb.
      destruct (existsb (isidentical b) (_traverse child)) eqn:Ho.
      * apply occurs_In in Ho. destruct (Hchild b Ho) as (He & Hh & Hl).
        destruct (path child b) as [p ends] eqn:Ep. cbn [fst snd] in *.
        repeat split; [assumption|].
        destruct p as [|p0 p]; [discriminate Hh|].
        rewrite <- Hl.
        change (last (a0 :: p0 :: p) a0) with (last (p0 :: p) a0).
        apply last_default. discriminate.
      * apply in_app_or in Hb. destruct Hb as [Hb|Hb].
        { apply occurs_In in Hb. congruence. }
        exact (IHl Hb).
Qed.

(** C6. Let [leaf] be the first leaf of an expression.  The path from the
    expression to [leaf] ends; it starts at the expression and stops at
    [leaf].  When every node on it is an instance of one of the classes
    [Head], [ElemWise], [Selection], [Distinct], [Symbol], the direct path
    hands the whole expression to the generic evaluator with [leaf] bound to
    an iterator over the data; otherwise it raises [MDNotImplementedError],
    upon which the dispatcher runs the chunked [compute_down]. *)
Theorem head_cheap_path_direct
        (subclass : Cls.t -> Cls.t -> bool)
        (compute : Expr -> scope -> result value)
        (split : Expr -> Expr -> Expr -> result ((Expr * Expr) * (Expr * Expr)))
        (partitions : bcolz -> Z -> list (Z * Z))
        (pd_concat_unaligned : list value -> result value)
        (map : map_function)
        (expr leaf : Expr) (data : bcolz) (chunksize : Z) :
  first (_leaves expr) = Ok leaf ->
  exists p,
    path expr leaf = (p, true) /\
    hd_error p = Some expr /\ last p expr = leaf /\
    (all_cheap subclass p = true ->
     compute_down_Head subclass compute expr data
     = compute expr [(leaf, into_Iterator data)]) /\
    (all_cheap subclass p = false ->
     compute_down_Head subclass compute expr data
     = Raise MDNotImplementedError /\
     (subclass (cls_of expr) Cls.Head = true ->
      compute_down_dispatch subclass compute split partitions
                            pd_concat_unaligned map expr data chunksize
      = compute_down compute split partitions pd_concat_unaligned
                     map expr data chunksize)).
Proof.
  intros Hleaf.
  assert (Hin : In leaf (_traverse expr)).
  { apply leaves_below. destruct (_leaves expr) as [|x l]; [discriminate|].
    injection Hleaf as ->. now left. }
  destruct (path_ends expr leaf Hin) as (Hends & Hhd & Hlast).
  destruct (path expr leaf) as [p ends] eqn:Ep. cbn [fst snd] in *. subst ends.
  exists p. repeat split; try assumption.
  - intros Hc. unfold compute_down_Head, all_of.
    rewrite Hleaf. cbn [bind]. rewrite Ep. cbn [fst snd].
    unfold all_cheap in Hc. rewrite Hc. reflexivity.
  - unfold compute_down_Head, all_of.
    rewrite Hleaf. cbn [bind]. rewrite Ep. cbn [fst snd].
    unfold all_cheap in H. rewrite H. reflexivity.
  - intros Hhead. unfold compute_down_dispatch. rewrite Hhead.
    unfold compute_down_Head, all_of.
    rewrite Hleaf. cbn [bind]. rewrite Ep. cbn [fst snd].
    unfold all_cheap in H. rewrite H. reflexivity.
Qed.

Lemma head_cheap_path_direct_witness :
  let t := Symbol "t" in
  let expr :=
    Node Cls.Head (mk_attrs "" 5 false false 0)
         [Node Cls.Selection no_attrs [Node Cls.ElemWise no_attrs [t]]] in
  let data := Carray (mk_carray [Z2Qc 1; Z2Qc 2] 16) in
  first (_leaves expr) = Ok t /\
  compute_down_Head blaze_subclass (fun _ s => Ok (VInt (len s))) expr data
  = Ok (VInt 1).
Proof.
  intros t expr data.
  assert (Hleaf : first (_leaves expr) = Ok t) by reflexivity.
  split; [exact Hleaf|].
  destruct (head_cheap_path_direct
              blaze_subclass (fun _ s => Ok (VInt (len s)))
              (fun _ _ _ => Raise NotImplementedError) (fun _ _ => [])
              (fun _ => Raise NotImplementedError) list_map expr t data 3
              Hleaf)
    as (p & Hp & _ & _ & Hcheap & _).
  rewrite Hcheap; [reflexivity|].
  injection Hp as <-. reflexivity.
Defined.

(* ================================================================== *)
(** ** The merger *)

Lemma mapM_Ok {A B} (g : A -> B) (l : list A) :
  mapM (fun x => Ok (g x)) l = Ok (map g l).
Proof.
  induction l as [|x l IH]; [reflexivity|]. simpl. rewrite IH. reflexivity.
Qed.

Lemma mapM_ext_in {A B} (f g : A -> result B) (l : list A) :
  (forall x, In x l -> f x = g x) -> mapM f l = mapM g l.
Proof.
  induction l as [|x l IH]; intros H; [reflexivity|]. simpl.
  rewrite (H x) by now left. rewrite IH; [reflexivity|].
  intros y Hy. apply H. now right.
Qed.

Lemma mapM_map {A B C} (f : B -> result C) (g : A -> B) (l : list A) :
  mapM f (map g l) = mapM (fun x => f (g x)) l.
Proof.
  induction l as [|x l IH]; [reflexivity|]. simpl. now rewrite IH.
Qed.

Lemma fold_nd_append_floats (xss : list (list fl)) (acc : list fl) :
  fold_left nd_append (map NdFloat xss) (NdFloat acc)
  = NdFloat (acc ++ concat xss).
Proof.
  revert acc. induction xss as [|xs xss IH]; intros acc; simpl.
  - now rewrite app_nil_r.
  - rewrite IH. now rewrite <- app_assoc.
Qed.


(** Float arrays concatenate in order. *)
Lemma np_concatenate_floats (xs : list fl) (xss : list (list fl)) :
  np_concatenate (map (fun ys => VArray (NdFloat ys)) (xs :: xss))
  = Ok (VArray (NdFloat (concat (xs :: xss)))).
Proof.
  unfold np_concatenate. rewrite mapM_map. cbn [as_ndarray].
  rewrite mapM_Ok. cbn [bind map].
  now rewrite fold_nd_append_floats.
Qed.


Section Merge.

Variable pd_concat_unaligned : list value -> result value.

Lemma pd_concat_aligned (cols : list string) (rss : list (list (list fl))) :
  rss <> [] ->
  pd_concat pd_concat_unaligned (map (VTable cols) rss)
  = Ok (VTable cols (concat rss)).
Proof.
  intros Hne. unfold pd_concat. rewrite mapM_map. cbn [as_table].
  rewrite mapM_Ok. cbn [bind].
  destruct rss as [|rs rss]; [congruence|]. cbn [map].
  assert (Hall : forallb (fun t : list string * list (list fl) =>
                            if list_eq_dec string_dec (fst t) cols
                            then true else false)
                         (map (pair cols) (rs :: rss)) = true).
  { apply forallb_forall. intros t Ht. apply in_map_iff in Ht.
    destruct Ht as (x & <- & _). cbn [fst].
    now destruct (list_eq_dec string_dec cols cols). }
  cbn [map] in Hall. rewrite Hall. do 2 f_equal.
  change ((cols, rs) :: map (pair cols) rss)
    with (map (pair cols) (rs :: rss)).
  rewrite flat_map_concat_map, map_map. cbn [snd]. now rewrite map_id.
Qed.

Lemma list_concat_lists (xss : list (list item)) :
  list_concat (map VList xss) = Ok (VList (concat xss)).
Proof.
  unfold list_concat. rewrite mapM_map. cbn [iter_items].
  rewrite mapM_Ok. cbn [bind]. now rewrite map_id.
Qed.

Lemma nd_append_is_int (a b : ndarray) :
  nd_is_int (nd_append a b) = nd_is_int a && nd_is_int b.
Proof. destruct a, b; reflexivity. Qed.

Lemma nd_append_promote (a b : ndarray) :
  promote (nd_append a b) = promote a ++ promote b.
Proof.
  destruct a, b; cbn [nd_append promote]; try reflexivity.
  apply map_app.
Qed.

Lemma nd_append_ints (a b : ndarray) :
  nd_is_int a = true -> nd_is_int b = true ->
  nd_ints (nd_append a b) = nd_ints a ++ nd_ints b.
Proof. destruct a, b; try discriminate; reflexivity. Qed.

Lemma nd_join_append (a b : ndarray) (rest : list ndarray) :
  nd_join (nd_append a b :: rest) = nd_join (a :: b :: rest).
Proof.
  unfold nd_join. cbn [forallb flat_map].
  rewrite nd_append_is_int, nd_append_promote, <- andb_assoc, <- app_assoc.
  destruct (nd_is_int a) eqn:Ea; [|reflexivity].
  destruct (nd_is_int b) eqn:Eb; [|reflexivity].
  now rewrite nd_append_ints, <- app_assoc.
Qed.

Lemma nd_join_single (a : ndarray) : nd_join [a] = a.
Proof.
  destruct a; unfold nd_join; cbn; now rewrite app_nil_r.
Qed.

Lemma fold_nd_append_join (rest : list ndarray) (a : ndarray) :
  fold_left nd_append rest a = nd_join (a :: rest).
Proof.
  revert a. induction rest as [|b rest IH]; intros a; cbn [fold_left].
  - now rewrite nd_join_single.
  - now rewrite IH, nd_join_append.
Qed.

(** Arrays of either kind concatenate in order, integers being promoted
    when a float array is among them. *)
Lemma np_concatenate_arrays (a : ndarray) (rest : list ndarray) :
  np_concatenate (map VArray (a :: rest)) = Ok (VArray (nd_join (a :: rest))).
Proof.
  unfold np_concatenate. rewrite mapM_map. cbn [as_ndarray].
  rewrite mapM_Ok, map_id. cbn [bind].
  now rewrite fold_nd_append_join.
Qed.

Lemma np_concatenate_shape (parts : list value) (v : value) :
  np_concatenate parts = Ok v -> is_array v = true.
Proof.
  unfold np_concatenate. destruct (mapM as_ndarray parts) as [l|e|];
    cbn [bind]; try discriminate.
  destruct l; [discriminate|]. now intros [= <-].
Qed.

(** Iterating over values that are not scalars. *)
Lemma mapM_iter_items (parts : list value) :
  existsb is_scalar parts = false ->
  mapM iter_items parts = Ok (map items_of parts).
Proof.
  intros H. induction parts as [|p parts IH]; [reflexivity|].
  cbn [existsb] in H. apply orb_false_iff in H. destruct H as [Hp Hps].
  cbn [mapM map]. rewrite (IH Hps).
  destruct p as [z|x|[xs|xs]|cols rs|xs|xs|xs]; try discriminate Hp;
    reflexivity.
Qed.

Lemma list_concat_items (parts : list value) :
  existsb is_scalar parts = false ->
  list_concat parts = Ok (VList (flat_map items_of parts)).
Proof.
  intros H. unfold list_concat.
  rewrite (mapM_iter_items parts H). cbn [bind].
  now rewrite flat_map_concat_map.
Qed.

Lemma list_concat_shape (parts : list value) (v : value) :
  list_concat parts = Ok v -> exists xs, v = VList xs.
Proof.
  unfold list_concat. destruct (mapM iter_items parts) as [l|e|];
    cbn [bind]; try discriminate.
  intros [= <-]. eexists. reflexivity.
Qed.

(** C7, as the code has it. The merger looks at the first chunk result and
    at no other: whatever the results after it are, an array in front sends
    all of them to [np.concatenate], a frame to [pd.concat], a list, tuple
    or iterator to [list(concat(...))], and a bare scalar leaves
    [intermediate] unbound.  So a merge that succeeds returns an array when
    the first result is an array and a list when it is a sequence.  Arrays
    are concatenated in the order of the chunks, frames have their rows
    concatenated, and a sequence in front flattens every chunk result in
    order, arrays and frames included.  A list of one array, one frame or
    one list merges to that very value; one tuple or iterator merges to the
    list of its items.  An empty list of chunk results has no first result:
    the merger raises [IndexError]. *)
Theorem merge_by_first_shape :
  merge pd_concat_unaligned [] = Raise IndexError /\
  (forall p0 rest,
      merge pd_concat_unaligned (p0 :: rest)
      = match p0 with
        | VArray _ => np_concatenate (p0 :: rest)
        | VTable _ _ => pd_concat pd_concat_unaligned (p0 :: rest)
        | VList _ | VTuple _ | VIter _ => list_concat (p0 :: rest)
        | VInt _ | VFloat _ => Raise UnboundLocalError
        end) /\
  (forall p0 rest v,
      merge pd_concat_unaligned (p0 :: rest) = Ok v ->
      (is_array p0 = true -> is_array v = true) /\
      (is_sequence p0 = true -> exists xs, v = VList xs) /\
      is_scalar p0 = false) /\
  (forall a rest,
      merge pd_concat_unaligned (map VArray (a :: rest))
      = Ok (VArray (nd_join (a :: rest)))) /\
  (forall cols rs rss,
      merge pd_concat_unaligned (map (VTable cols) (rs :: rss))
      = Ok (VTable cols (concat (rs :: rss)))) /\
  (forall p0 rest,
      is_sequence p0 = true -> existsb is_scalar rest = false ->
      merge pd_concat_unaligned (p0 :: rest)
      = Ok (VList (flat_map items_of (p0 :: rest)))) /\
  (forall a, merge pd_concat_unaligned [VArray a] = Ok (VArray a)) /\
  (forall cols rs,
      merge pd_concat_unaligned [VTable cols rs] = Ok (VTable cols rs)) /\
  (forall xs, merge pd_concat_unaligned [VList xs] = Ok (VList xs)) /\
  (forall xs, merge pd_concat_unaligned [VTuple xs] = Ok (VList xs) /\
              merge pd_concat_unaligned [VIter xs] = Ok (VList xs)).
Proof.
  assert (Hdispatch : forall p0 rest,
      merge pd_concat_unaligned (p0 :: rest)
      = match p0 with
        | VArray _ => np_concatenate (p0 :: rest)
        | VTable _ _ => pd_concat pd_concat_unaligned (p0 :: rest)
        | VList _ | VTuple _ | VIter _ => list_concat (p0 :: rest)
        | VInt _ | VFloat _ => Raise UnboundLocalError
        end).
  { intros p0 rest. reflexivity. }
  assert (Hseq : forall p0 rest,
      is_sequence p0 = true -> existsb is_scalar rest = false ->
      merge pd_concat_unaligned (p0 :: rest)
      = Ok (VList (flat_map items_of (p0 :: rest)))).
  { intros p0 rest Hp Hrest. rewrite Hdispatch.
    assert (Hall : existsb is_scalar (p0 :: rest) = false).
    { cbn [existsb]. rewrite Hrest.
      destruct p0; try discriminate Hp; reflexivity. }
    destruct p0; try discriminate Hp; now apply list_concat_items. }
  split; [reflexivity|].
  split; [exact Hdispatch|].
  split.
  { intros p0 rest v Hv. rewrite Hdispatch in Hv.
    destruct p0; try discriminate Hv; repeat split; try discriminate;
      intros _.
    - now apply np_concatenate_shape in Hv.
    - now apply list_concat_shape in Hv.
    - now apply list_concat_shape in Hv.
    - now apply list_concat_shape in Hv. }
  split.
  { intros a rest. cbn [map]. rewrite Hdispatch.
    exact (np_concatenate_arrays a rest). }
  split.
  { intros cols rs rss. cbn [map]. rewrite Hdispatch.
    apply (pd_concat_aligned cols (rs :: rss)). discriminate. }
  split; [exact Hseq|].
  split.
  { intros a. rewrite Hdispatch.
    change [VArray a] with (map VArray [a]).
    rewrite (np_concatenate_arrays a []). now rewrite nd_join_single. }
  split.
  { intros cols rs. rewrite Hdispatch.
    change [VTable cols rs] with (map (VTable cols) [rs]).
    rewrite (pd_concat_aligned cols [rs]) by discriminate.
    simpl. now rewrite app_nil_r. }
  split.
  { intros xs. rewrite (Hseq (VList xs) []) by reflexivity.
    simpl. now rewrite app_nil_r. }
  intros xs. split.
  - rewrite (Hseq (VTuple xs) []) by reflexivity.
    simpl. now rewrite app_nil_r.
  - rewrite (Hseq (VIter xs) []) by reflexivity.
    simpl. now rewrite app_nil_r.
Qed.

End Merge.

Lemma merge_by_first_shape_witness :
  merge (fun _ => Raise NotImplementedError)
        [VList [IInt 1]; VArray (NdInt [2; 3])]
  = Ok (VList [IInt 1; IInt 2; IInt 3]) /\
  merge (fun _ => Raise NotImplementedError)
        [VArray (NdInt [2; 3]); VArray (NdFloat [NaN])]
  = Ok (VArray (NdFloat [Fin (Z2Qc 2); Fin (Z2Qc 3); NaN])).
Proof.
  destruct (merge_by_first_shape (fun _ => Raise NotImplementedError))
    as (_ & _ & _ & Harr & _ & Hseq & _).
  split.
  - exact (Hseq (VList [IInt 1]) [VArray (NdInt [2; 3])] eq_refl eq_refl).
  - exact (Harr (NdInt [2; 3]) [NdFloat [NaN]]).
Defined.

(** C7 as stated fails on an empty list of chunk results: the merger
    raises, it returns no empty value. *)
Lemma merge_empty_raises :
  merge (fun _ => Raise NotImplementedError) [] = Raise IndexError /\
  forall v, merge (fun _ => Raise NotImplementedError) [] <> Ok v.
Proof.
  split; [reflexivity|]. intros v. discriminate.
Qed.

(* ================================================================== *)
(** ** The chunked pipeline against the direct evaluation *)
















(* ------------------------------------------------------------------ *)
(** ** Partitions that follow one another *)






(* ------------------------------------------------------------------ *)
(** ** The modelled splitter meets its guarantee *)

Section ChunkedDirect.

Variable ufunc : nat -> fl -> fl.
Variable predicate : nat -> fl -> bool.
Variable pd : list value -> result value.




Lemma map_chain_cases (leaf m : Expr) :
  map_chain leaf m = true ->
  m = leaf \/
  exists a m', m = Node Cls.ElemWise a [m'] /\ isidentical m leaf = false /\
               map_chain leaf m' = true.
Proof.
  intros H. destruct (isidentical m leaf) eqn:E.
  - left. now apply isidentical_eq.
  - right. destruct m as [c a inputs]. cbn [map_chain] in H.
    rewrite E in H. cbn [orb] in H.
    destruct c; try discriminate H.
    destruct inputs as [|m' [|? ?]]; try discriminate H.
    exists a, m'. repeat split; assumption.
Qed.



Lemma leaves_chain (leaf : Expr) :
  _inputs leaf = [] ->
  forall m, map_chain leaf m = true -> _leaves m = [leaf].
Proof.
  intros Hleaf m.
  induction m as [c a inputs IH] using Expr_nested_ind. intros Hm.
  destruct (map_chain_cases _ _ Hm) as [->|(a' & m' & Em & Eid & Hm')].
  - destruct leaf as [cl al il]. cbn [_inputs] in Hleaf. subst il. reflexivity.
  - injection Em as -> -> ->. apply Forall_inv in IH.
    cbn [_leaves flat_map]. rewrite (IH Hm'). reflexivity.
Qed.











End ChunkedDirect.

Lemma plan_empty (c : Z) : 1 <= c -> plan 0 c = [].
Proof.
  intros Hc. unfold plan.
  replace (Z.to_nat (ceil_div 0 c)) with 0%nat; [reflexivity|].
  pose proof (ceil_div_nonpos 0 c Hc ltac:(lia)). lia.
Qed.

(* ------------------------------------------------------------------ *)
(** ** [compute_down] against the direct evaluation *)

Section ComputeDown.

Variable compute : Expr -> scope -> result value.
Variable split :
  Expr -> Expr -> Expr -> result ((Expr * Expr) * (Expr * Expr)).
Variable partitions : bcolz -> Z -> list (Z * Z).
Variable pd_concat_unaligned : list value -> result value.




End ComputeDown.




(* ================================================================== *)
(** ** The scenarios of section 8 *)

Ltac float_result :=
  vm_compute;
  first [reflexivity | do 3 f_equal; apply Qc_is_canon; reflexivity].

Example scenario_partitions :
  chunk_ranges 10 3 = Some [(0, 3); (3, 6); (6, 9); (9, 10)].
Proof. reflexivity. Qed.

Example scenario_sum :
  compute_up_sum exact (reduction_of Cls.sum false) one_to_ten
  = Ok (VFloat (Fin (Z2Qc 55))).
Proof. float_result. Qed.

Example scenario_count :
  compute_up_count (reduction_of Cls.count false) (Carray one_to_ten)
  = Ok (VInt 10).
Proof. reflexivity. Qed.

Example scenario_mean :
  compute_up_mean exact (reduction_of Cls.mean false) one_to_ten
  = Ok (VFloat (Fin (Q2Qc (11 # 2)))).
Proof. float_result. Qed.

Example scenario_variance :
  compute_up_var exact (reduction_of Cls.var true) one_to_ten
  = Ok (VFloat (Fin (Q2Qc (55 # 6)))).
Proof. float_result. Qed.

Example scenario_std :
  exists s,
    compute_up_std exact sqrt_fix (reduction_of Cls.std true) one_to_ten
    = Ok (VFloat (Fin s)) /\
    Qc_ltb (Q2Qc (30276 # 10000)) s = true /\
    Qc_ltb s (Q2Qc (30277 # 10000)) = true.
Proof.
  eexists. split; [vm_compute; reflexivity|]. split; vm_compute; reflexivity.
Qed.

Example scenario_empty_count :
  compute_up_count (reduction_of Cls.count false) (Carray (mk_carray [] 0))
  = Ok (VInt 0).
Proof. reflexivity. Qed.

Example scenario_nunique :
  let data := mk_carray (map Z2Qc [1; 1; 2; 2; 3]) 40 in
  compute_up_nunique (reduction_of Cls.nunique false) data = Ok (VInt 3) /\
  chunked square_plus_one (fun _ _ => true) (reduction_of Cls.nunique false)
          (Carray data) 2
  = Ok (VInt 3).
Proof. split; vm_compute; reflexivity. Qed.

(* ================================================================== *)
(** ** More on [chunks] and [get_chunk] *)

Lemma getslice_length {A} (b : list A) (start stop : Z) :
  len (getslice b start stop)
  = Z.max 0 (clip (len b) stop - clip (len b) start).
Proof.
  unfold getslice, slice_indices. cbn [fst snd].
  pose proof (len_nonneg b) as Hn.
  assert (Hc : forall i, 0 <= clip (len b) i <= len b).
  { intros i. unfold clip. destruct (Z.ltb_spec i 0); lia. }
  pose proof (Hc start) as Hs. pose proof (Hc stop) as He.
  unfold len in *. rewrite length_firstn, length_skipn. lia.
Qed.

Lemma chunk_at {A} (b : list A) (c : Z) (cs : list (list A)) (k : nat)
      (chunk : list A) :
  1 <= c -> chunks b c = Some cs -> nth_error cs k = Some chunk ->
  (Z.of_nat k < ceil_div (len b) c) /\
  chunk = getslice b (c * Z.of_nat k) (c * (Z.of_nat k + 1)).
Proof.
  intros Hc Hcs Hk. rewrite chunks_closed in Hcs by assumption.
  injection Hcs as <-. unfold slices_of, raw_slices in Hk.
  assert (Hlt : (k < Z.to_nat (ceil_div (len b) c))%nat).
  { assert (Hs : nth_error
                   (map (fun s => getslice b (fst s) (snd s))
                        (map (fun k => (0 + c * Z.of_nat k,
                                        0 + c * (Z.of_nat k + 1)))
                             (seq 0 (Z.to_nat (ceil_div (len b) c))))) k
                 <> None) by congruence.
    apply nth_error_Some in Hs. now rewrite !length_map, length_seq in Hs. }
  split; [lia|].
  rewrite !nth_error_map, nth_error_seq in Hk.
  destruct (Nat.ltb_spec k (Z.to_nat (ceil_div (len b) c))); [|lia].
  cbn [option_map fst snd] in Hk. rewrite !Z.add_0_l, Nat.add_0_l in Hk.
  congruence.
Qed.

Lemma chunks_count {A} (b : list A) (c : Z) (cs : list (list A)) :
  1 <= c -> chunks b c = Some cs ->
  Z.of_nat (length cs) = ceil_div (len b) c.
Proof.
  intros Hc Hcs.
  rewrite chunks_closed in Hcs by assumption. injection Hcs as <-.
  unfold slices_of, raw_slices. rewrite !length_map, length_seq.
  pose proof (len_nonneg b) as Hn.
  destruct (Z.eq_dec (len b) 0) as [E|E].
  - rewrite E. pose proof (ceil_div_nonpos 0 c Hc ltac:(lia)).
    pose proof (ceil_div_bounds 0 c Hc). nia.
  - pose proof (ceil_div_pos (len b) c Hc ltac:(lia)). lia.
Qed.

(** X1. For a chunk size of at least 1 the generator [chunks] ends, yields
    [ceil(len(b) / chunksize)] chunks, and the chunks put end to end are the
    source. *)
Theorem chunks_reassemble {A} (b : list A) (c : Z) :
  1 <= c ->
  exists cs,
    chunks b c = Some cs /\
    concat cs = b /\
    Z.of_nat (length cs) = ceil_div (len b) c.
Proof.
  intros Hc. destruct (chunks_concat b c Hc) as (cs & Hcs & Hcat).
  exists cs. repeat split; try assumption. now apply chunks_count.
Qed.

Lemma chunks_reassemble_witness :
  exists cs, chunks [1; 2; 3; 4; 5; 6; 7] 3 = Some cs /\
             concat cs = [1; 2; 3; 4; 5; 6; 7] /\
             Z.of_nat (length cs) = 3.
Proof.
  exact (chunks_reassemble [1; 2; 3; 4; 5; 6; 7] 3 ltac:(lia)).
Defined.

(** X2. For a chunk size [c >= 1] no chunk that [chunks] yields is empty,
    none is longer than [c], and every chunk but the last holds exactly [c]
    elements. *)
Theorem chunks_sizes {A} (b : list A) (c : Z) (cs : list (list A)) (k : nat)
        (chunk : list A) :
  1 <= c -> chunks b c = Some cs -> nth_error cs k = Some chunk ->
  1 <= len chunk <= c /\
  ((S k < length cs)%nat -> len chunk = c).
Proof.
  intros Hc Hcs Hk.
  destruct (chunk_at b c cs k chunk Hc Hcs Hk) as [Hlt ->].
  pose proof (chunks_count b c cs Hc Hcs) as Hlen.
  pose proof (len_nonneg b) as Hn.
  pose proof (ceil_div_bounds (len b) c Hc) as B.
  rewrite getslice_length. unfold clip.
  destruct (c * (Z.of_nat k + 1) <? 0) eqn:E1; [apply Z.ltb_lt in E1; nia|].
  destruct (c * Z.of_nat k <? 0) eqn:E2; [apply Z.ltb_lt in E2; nia|].
  split; [nia|]. intros Hlast. nia.
Qed.

Lemma chunks_sizes_witness :
  chunks [1; 2; 3; 4; 5; 6; 7] 3 = Some [[1; 2; 3]; [4; 5; 6]; [7]] /\
  1 <= len [7] <= 3.
Proof.
  assert (H : chunks [1; 2; 3; 4; 5; 6; 7] 3
              = Some [[1; 2; 3]; [4; 5; 6]; [7]]) by reflexivity.
  split; [exact H|].
  exact (proj1 (chunks_sizes [1; 2; 3; 4; 5; 6; 7] 3 _ 2%nat [7]
                             ltac:(lia) H eq_refl)).
Defined.

(** X3. With a chunk size of zero or less, [chunks] over an empty source
    yields nothing and ends, and over a non-empty source the loop never ends:
    no amount of fuel lets it return. *)
Theorem chunks_nonpositive_chunksize {A} (b : list A) (c : Z) :
  c <= 0 ->
  (b = [] -> chunks b c = Some []) /\
  (b <> [] ->
   chunks b c = None /\
   forall fuel, chunk_slices fuel 0 (len b) c = None).
Proof.
  intros Hc. split.
  - intros ->. reflexivity.
  - intros Hne.
    assert (Hpos : 0 < len b).
    { unfold len. destruct b; [congruence|]. cbn [length]. lia. }
    split.
    + unfold chunks. now rewrite (chunk_slices_diverges (len b) c _ Hc 0 Hpos).
    + intros fuel. now apply chunk_slices_diverges.
Qed.

Lemma chunks_nonpositive_chunksize_witness :
  chunks [1; 2; 3] 0 = None /\ chunks (@nil Z) 0 = Some [].
Proof.
  destruct (chunks_nonpositive_chunksize [1; 2; 3] 0 ltac:(lia)) as [_ H].
  destruct (chunks_nonpositive_chunksize (@nil Z) 0 ltac:(lia)) as [H0 _].
  split; [apply H; discriminate|apply H0; reflexivity].
Defined.

Lemma chunks_nth_get_chunk_witness :
  nth_error [[1; 2; 3]; [4; 5; 6]; [7]] 2
  = Some (get_chunk [1; 2; 3; 4; 5; 6; 7] 2 3).
Proof.
  exact (chunks_nth_get_chunk [1; 2; 3; 4; 5; 6; 7] 3
                              [[1; 2; 3]; [4; 5; 6]; [7]] 2%nat
                              ltac:(lia) eq_refl ltac:(simpl; lia)).
Defined.

(** X5. For a chunk size [c >= 1] and an index [i >= 0], [get_chunk] never
    fails: it returns [min(c*(i+1), len(b)) - c*i] elements, hence nothing
    at all once [c*i] reaches the end of the source.  The index -1 does not
    address the last chunk: [b[-c:0]] is empty. *)
Theorem get_chunk_length {A} (b : list A) (i c : Z) :
  1 <= c -> 0 <= i ->
  len (get_chunk b i c) = Z.max 0 (Z.min (c * (i + 1)) (len b) - c * i) /\
  (len b <= c * i -> get_chunk b i c = []) /\
  get_chunk b (-1) c = [].
Proof.
  intros Hc Hi. pose proof (len_nonneg b) as Hn.
  assert (Hlen : len (get_chunk b i c)
                 = Z.max 0 (Z.min (c * (i + 1)) (len b) - c * i)).
  { unfold get_chunk. rewrite getslice_length. unfold clip.
    destruct (Z.ltb_spec (c * (i + 1)) 0); [nia|].
    destruct (Z.ltb_spec (c * i) 0); [nia|]. nia. }
  split; [exact Hlen|]. split.
  - intros Hend. apply length_zero_iff_nil.
    unfold len in Hlen. unfold len in Hend. lia.
  - apply length_zero_iff_nil.
    assert (H : len (get_chunk b (-1) c) = 0).
    { unfold get_chunk. rewrite getslice_length. unfold clip.
      replace (c * (-1 + 1)) with 0 by ring.
      destruct (Z.ltb_spec 0 0); [lia|].
      destruct (Z.ltb_spec (c * -1) 0); lia. }
    unfold len in H. lia.
Qed.

Lemma get_chunk_length_witness :
  len (get_chunk [1; 2; 3; 4; 5; 6; 7] 2 3) = 1 /\
  get_chunk [1; 2; 3; 4; 5; 6; 7] 3 3 = [].
Proof.
  destruct (get_chunk_length [1; 2; 3; 4; 5; 6; 7] 2 3 ltac:(lia) ltac:(lia))
    as [H _].
  destruct (get_chunk_length [1; 2; 3; 4; 5; 6; 7] 3 3 ltac:(lia) ltac:(lia))
    as (_ & H' & _).
  split; [exact H|apply H'; vm_compute; discriminate].
Defined.

(* ================================================================== *)
(** ** [compute_up(Head, ...)] *)

(** [b[:n]] keeps the first [n] elements, or all but the last [-n]. *)
Lemma getslice_prefix {A} (b : list A) (n : Z) :
  getslice b 0 n
  = firstn (Z.to_nat (if n <? 0 then len b + n else n)) b.
Proof.
  unfold getslice, slice_indices, clip. cbn [fst snd].
  pose proof (len_nonneg b) as Hn.
  destruct (Z.ltb_spec 0 0); [lia|]. rewrite (Z.min_l 0) by lia.
  rewrite Z.sub_0_r. cbn [Z.to_nat skipn].
  destruct (Z.ltb_spec n 0).
  - f_equal. lia.
  - destruct (Z_le_gt_dec n (len b)).
    + now rewrite Z.min_l.
    + rewrite Z.min_r by lia. unfold len in *.
      rewrite Nat2Z.id, firstn_all. symmetry. apply firstn_all2. lia.
Qed.

(** X6. [compute_up] of a [Head] never raises: over a carray it returns the
    first [n] elements as a numpy array when [n >= 0] (everything when [n]
    exceeds the length), and all but the last [-n] elements when [n] is
    negative; over a ctable it returns the same rows of the table. *)
Theorem head_is_prefix (expr : Expr) (data : bcolz) :
  let n := a_n (attrs_of expr) in
  let k := Z.to_nat (if n <? 0 then bcolz_len data + n else n) in
  compute_up_Head expr data
  = Ok (match data with
        | Carray a => VArray (NdFloat (map Fin (firstn k (items a))))
        | Ctable t => VTable (names t) (map (map Fin) (firstn k (rows t)))
        end).
Proof.
  intros n k. unfold compute_up_Head. subst n k. f_equal.
  destruct data as [a|t]; cbn [bcolz_getslice bcolz_len];
    now rewrite getslice_prefix.
Qed.

(* ================================================================== *)
(** ** More on the reductions *)

Lemma Z2Qc_pos (z : Z) : 0 < z -> (0 < Z2Qc z)%Qc.
Proof.
  intros Hz. unfold Qclt, Z2Qc, Q2Qc. cbn [this].
  rewrite !Qred_correct. unfold Qlt, inject_Z. cbn [Qnum Qden]. lia.
Qed.

Lemma Z2Qc_neq0 (z : Z) : z <> 0 -> Z2Qc z <> 0%Qc.
Proof. intros Hz H. apply Z2Qc_eq0 in H. contradiction. Qed.

Lemma Z2Qc_succ (z : Z) : Z2Qc (z + 1) = (Z2Qc z + 1)%Qc.
Proof.
  apply Qc_is_canon. unfold Z2Qc, Qcplus, Q2Qc. cbn [this].
  rewrite !Qred_correct. rewrite inject_Z_plus. reflexivity.
Qed.

Lemma len_cons {A} (x : A) (xs : list A) : len (x :: xs) = len xs + 1.
Proof. unfold len. cbn [length]. lia. Qed.

Lemma len_pos {A} (xs : list A) : xs <> [] -> 1 <= len xs.
Proof.
  destruct xs; [congruence|]. intros _. rewrite len_cons.
  pose proof (len_nonneg xs). lia.
Qed.

(** X7. In exact arithmetic, where no operation rounds or overflows, the
    mean over a non-empty carray is the sum divided by the count: the mean
    times the number of elements is the sum of the elements. *)
Theorem mean_times_count_is_sum (expr : Expr) (ba : carray) :
  items ba <> [] ->
  exists m, compute_up_mean exact expr ba
            = wrap (keepdims expr) (VFloat (Fin m)) /\
            (m * Z2Qc (len (items ba)) = Qc_sum (items ba))%Qc.
Proof.
  intros Hne. pose proof (len_pos (items ba) Hne) as Hn.
  unfold compute_up_mean, np_truediv.
  destruct (Z.eqb_spec (len (items ba)) 0) as [E|E]; [lia|].
  eexists. split; [reflexivity|].
  unfold exact, np_sum. rewrite sum_from_zero_exact.
  pose proof (Z2Qc_neq0 _ E) as Hd. field. exact Hd.
Qed.

Lemma mean_times_count_is_sum_witness :
  exists m, compute_up_mean exact (reduction_of Cls.mean false) one_to_ten
            = Ok (VFloat (Fin m)) /\
            (m * Z2Qc 10 = Qc_sum (items one_to_ten))%Qc.
Proof.
  exact (mean_times_count_is_sum
           (reduction_of Cls.mean false) one_to_ten ltac:(discriminate)).
Defined.

Lemma Qc_sq_nonneg (a : Qc) : (0 <= a * a)%Qc.
Proof.
  destruct (Qclt_le_dec a 0) as [Hneg|Hpos].
  - replace (a * a)%Qc with ((- a) * (- a))%Qc by ring.
    assert (H : (0 <= - a)%Qc).
    { apply Qclt_le_weak in Hneg. apply Qcopp_le_compat in Hneg.
      now replace (- 0)%Qc with 0%Qc in Hneg by ring. }
    replace 0%Qc with (0 * - a)%Qc by ring.
    now apply Qcmult_le_compat_r.
  - replace 0%Qc with (0 * a)%Qc by ring.
    now apply Qcmult_le_compat_r.
Qed.

Lemma Qc_sum_squares_nonneg (f : Qc -> Qc) (xs : list Qc) :
  (0 <= Qc_sum (map (fun x => f x * f x)%Qc xs))%Qc.
Proof.
  induction xs as [|x xs IH]; cbn [map Qc_sum fold_right].
  - apply Qcle_refl.
  - replace 0%Qc with (0 + 0)%Qc by ring.
    apply Qcplus_le_compat; [apply Qc_sq_nonneg|exact IH].
Qed.

Lemma sum_squared_deviations (y : Qc) (xs : list Qc) :
  Qc_sum (map (fun x => (y - x) * (y - x))%Qc xs)
  = (Z2Qc (len xs) * y * y - (1 + 1) * y * Qc_sum xs
     + Qc_sum (map (fun x => x * x)%Qc xs))%Qc.
Proof.
  induction xs as [|x xs IH].
  - cbn [map Qc_sum fold_right]. change (len (@nil Qc)) with 0.
    replace (Z2Qc 0) with 0%Qc by reflexivity. ring.
  - cbn [map]. unfold Qc_sum in *. cbn [fold_right]. rewrite IH.
    rewrite len_cons, Z2Qc_succ. ring.
Qed.

(** Cauchy-Schwarz for the constant vector: the numerator of the variance is
    not negative. *)
Lemma variance_numerator_nonneg (xs : list Qc) :
  xs <> [] ->
  (0 <= Qc_sum (map (fun x => x * x)%Qc xs)
        - Qc_sum xs * Qc_sum xs / Z2Qc (len xs))%Qc.
Proof.
  intros Hne. pose proof (len_pos xs Hne) as Hn.
  assert (Hd : Z2Qc (len xs) <> 0%Qc) by (apply Z2Qc_neq0; lia).
  pose proof (Qc_sum_squares_nonneg
                (fun x => Qc_sum xs / Z2Qc (len xs) - x)%Qc xs) as H.
  cbv beta in H. rewrite sum_squared_deviations in H.
  match goal with
  | H : (0 <= ?a)%Qc |- (0 <= ?b)%Qc => replace b with a; [exact H|]
  end.
  field. exact Hd.
Qed.

Lemma Qc_div_nonneg (a d : Qc) : (0 <= a)%Qc -> (0 < d)%Qc -> (0 <= a / d)%Qc.
Proof.
  intros Ha Hd. apply (Qcmult_lt_0_le_reg_r _ _ d Hd).
  replace (0 * d)%Qc with 0%Qc by ring.
  replace (a / d * d)%Qc with a; [exact Ha|].
  field. now apply Qclt_not_eq in Hd; auto.
Qed.

Lemma variance_formula_nonneg (flag : bool) (xs : list Qc) :
  1 <= len xs - Z.b2z flag ->
  exists v, variance_formula flag xs = Fin v /\ (0 <= v)%Qc.
Proof.
  intros Hn. unfold variance_formula, ieee_div.
  replace (if flag then 1 else 0) with (Z.b2z flag)
    by (destruct flag; reflexivity).
  destruct (Qc_eq_dec (Z2Qc (len xs - Z.b2z flag)) 0%Qc) as [E|_].
  { apply Z2Qc_eq0 in E. lia. }
  eexists. split; [reflexivity|].
  apply Qc_div_nonneg.
  - apply variance_numerator_nonneg. intros ->.
    change (len (@nil Qc)) with 0 in Hn. destruct flag; simpl in Hn; lia.
  - apply Z2Qc_pos. lia.
Qed.

(** X8. In exact arithmetic the variance of a carray is never negative, as
    soon as the divisor [n - unbiased] is at least 1; the standard deviation
    then raises nothing and is the square root of that variance.  A
    [ValueError] of the standard deviation can only come from rounding. *)
Theorem std_exact_never_raises (fsqrt : Qc -> Qc) (expr : Expr)
        (ba : carray) :
  1 <= len (items ba) - Z.b2z (unbiased expr) ->
  exists v,
    compute_up_var exact (child_var expr) ba = Ok (VFloat (Fin v)) /\
    (0 <= v)%Qc /\
    compute_up_std exact fsqrt expr ba
    = wrap (keepdims expr) (VFloat (Fin (fsqrt v))).
Proof.
  intros Hn.
  assert (Hlen : 1 <= len (items ba))
    by (destruct (unbiased expr); simpl in Hn; lia).
  destruct (variance_formula_nonneg (unbiased expr) (items ba) Hn)
    as (v & Hv & Hpos).
  pose proof (var_exact_formula (child_var expr) ba Hlen) as Hvar.
  change (keepdims (child_var expr)) with false in Hvar.
  change (unbiased (child_var expr)) with (unbiased expr) in Hvar.
  cbn [wrap] in Hvar. rewrite Hv in Hvar.
  exists v. split; [exact Hvar|]. split; [exact Hpos|].
  rewrite (std_after_var exact fsqrt expr ba (Fin v) Hvar).
  cbn [fl_negative fl_sqrt].
  destruct (Qc_ltb v 0) eqn:E; [|reflexivity].
  apply Qc_ltb_lt in E. apply Qcle_not_lt in Hpos. contradiction.
Qed.

Lemma std_exact_never_raises_witness :
  exists v,
    compute_up_var exact (child_var (reduction_of Cls.std true)) one_to_ten
    = Ok (VFloat (Fin v)) /\
    (0 <= v)%Qc /\
    compute_up_std exact sqrt_fix (reduction_of Cls.std true) one_to_ten
    = Ok (VFloat (Fin (sqrt_fix v))).
Proof.
  exact (std_exact_never_raises sqrt_fix (reduction_of Cls.std true)
                                one_to_ten ltac:(vm_compute; discriminate)).
Defined.

(** X9. The unbiased variance of a carray of one element divides zero by
    zero: in exact arithmetic the variance is NaN, and the standard
    deviation hands the NaN on without raising. *)
Theorem unbiased_variance_of_one_is_nan (fsqrt : Qc -> Qc) (expr : Expr)
        (ba : carray) (x : Qc) :
  items ba = [x] -> unbiased expr = true ->
  compute_up_var exact expr ba = wrap (keepdims expr) (VFloat NaN) /\
  compute_up_std exact fsqrt expr ba = wrap (keepdims expr) (VFloat NaN).
Proof.
  intros Hx Hu.
  assert (Hlen : 1 <= len (items ba)) by (rewrite Hx; vm_compute; discriminate).
  assert (Hf : variance_formula true (items ba) = NaN).
  { rewrite Hx. unfold variance_formula, ieee_div.
    cbn [map Qc_sum fold_right]. change (len [x]) with 1.
    destruct (Qc_eq_dec (Z2Qc (1 - 1)) 0%Qc) as [_|H];
      [|exfalso; apply H; reflexivity].
    assert (E : (x * x + 0 - (x + 0) * (x + 0) / Z2Qc 1 = 0)%Qc).
    { replace (Z2Qc 1) with 1%Qc by reflexivity. field. discriminate. }
    rewrite E. reflexivity. }
  split.
  - rewrite (var_exact_formula expr ba Hlen), Hu, Hf. reflexivity.
  - pose proof (var_exact_formula (child_var expr) ba Hlen) as Hvar.
    change (keepdims (child_var expr)) with false in Hvar.
    change (unbiased (child_var expr)) with (unbiased expr) in Hvar.
    rewrite Hu, Hf in Hvar. cbn [wrap] in Hvar.
    now rewrite (std_after_var exact fsqrt expr ba NaN Hvar).
Qed.

Lemma unbiased_variance_of_one_is_nan_witness :
  compute_up_var exact (reduction_of Cls.var true) (mk_carray [Z2Qc 5] 8)
  = Ok (VFloat NaN) /\
  compute_up_std exact sqrt_fix (reduction_of Cls.var true)
                 (mk_carray [Z2Qc 5] 8)
  = Ok (VFloat NaN).
Proof.
  exact (unbiased_variance_of_one_is_nan
           sqrt_fix (reduction_of Cls.var true) (mk_carray [Z2Qc 5] 8)
           (Z2Qc 5) eq_refl eq_refl).
Defined.

(** X10. Whatever the rounding, the variance computation ends: it raises
    [ZeroDivisionError] exactly when the carray is empty, and over a
    non-empty carray it returns a float (wrapped by [keepdims]) and raises
    nothing. *)
Theorem var_raises_iff_empty (rnd : Qc -> Qc) (expr : Expr) (ba : carray) :
  (items ba = [] <-> compute_up_var rnd expr ba = Raise ZeroDivisionError) /\
  (items ba <> [] ->
   exists v, compute_up_var rnd expr ba = wrap (keepdims expr) (VFloat v)) /\
  compute_up_var rnd expr ba <> Diverge.
Proof.
  unfold compute_up_var.
  rewrite (chunks_closed (items ba) default_chunksize default_chunksize_pos).
  cbn [of_option bind]. unfold py_truediv.
  destruct (Z.eqb_spec (len (items ba)) 0) as [E|E]; cbn [bind].
  - assert (He : items ba = []).
    { unfold len in E. destruct (items ba); [reflexivity|discriminate]. }
    repeat split; try congruence.
  - assert (Hne : items ba <> []).
    { intros He. rewrite He in E. apply E. reflexivity. }
    split; [|split].
    + split; [contradiction|].
      destruct (keepdims expr); discriminate.
    + intros _. eexists. reflexivity.
    + destruct (keepdims expr); discriminate.
Qed.

(** X11. The distinct count of a carray lies between 0 and the count, is 0
    only for an empty carray, and equals the count when no value repeats. *)
Theorem nunique_bounds (expr : Expr) (ba : carray) :
  exists k,
    compute_up_nunique expr ba = wrap (keepdims expr) (VInt k) /\
    0 <= k <= len (items ba) /\
    (k = 0 <-> items ba = []) /\
    (NoDup (items ba) -> k = len (items ba)).
Proof.
  exists (len (nodup Qc_eq_dec (items ba))).
  split; [reflexivity|].
  pose proof (NoDup_nodup Qc_eq_dec (items ba)) as Hnd.
  assert (Hincl : incl (nodup Qc_eq_dec (items ba)) (items ba)).
  { intros x Hx. now apply nodup_In in Hx. }
  pose proof (NoDup_incl_length Hnd Hincl) as Hle.
  split; [unfold len; lia|]. split.
  - unfold len. split.
    + intros Hk. destruct (items ba) as [|x xs] eqn:E; [reflexivity|].
      assert (Hin : In x (nodup Qc_eq_dec (x :: xs)))
        by (apply nodup_In; now left).
      destruct (nodup Qc_eq_dec (x :: xs)); [destruct Hin|].
      cbn [length] in Hk. lia.
    + intros ->. reflexivity.
  - intros Hno. now rewrite nodup_fixed_point.
Qed.

Lemma var_raises_iff_empty_witness :
  (exists v, compute_up_var round_tenths (reduction_of Cls.var true)
                            one_to_ten
             = Ok (VFloat v)) /\
  compute_up_var round_tenths (reduction_of Cls.var true) (mk_carray [] 0)
  = Raise ZeroDivisionError.
Proof.
  destruct (var_raises_iff_empty round_tenths (reduction_of Cls.var true)
                                 one_to_ten) as (_ & Hok & _).
  destruct (var_raises_iff_empty round_tenths (reduction_of Cls.var true)
                                 (mk_carray [] 0)) as ([Hraise _] & _ & _).
  split; [apply Hok; discriminate|apply Hraise; reflexivity].
Defined.

Lemma nunique_bounds_witness :
  compute_up_nunique (reduction_of Cls.nunique false)
                     (mk_carray (map Z2Qc [3; 2; 1]) 24)
  = Ok (VInt 3).
Proof.
  destruct (nunique_bounds (reduction_of Cls.nunique false)
                           (mk_carray (map Z2Qc [3; 2; 1]) 24))
    as (k & Hk & _ & _ & Hall).
  rewrite Hk, Hall; [reflexivity|].
  cbn [items map]. repeat constructor; cbn [In];
    intros H; repeat (destruct H as [H|H]; [discriminate H|]); exact H.
Defined.

(* ================================================================== *)
(** ** More on the dispatcher and the memory policy *)

Lemma registered_nunique :
  (In ((Cls.nunique, carray_t), up_nunique) compute_up_funcs /\
   (forall e, In e compute_up_funcs -> fst e = (Cls.nunique, carray_t) ->
              e = ((Cls.nunique, carray_t), up_nunique))) /\
  (In ((Cls.nunique, ctable_t), up_in_memory_or_stream) compute_up_funcs /\
   (forall e, In e compute_up_funcs -> fst e = (Cls.nunique, ctable_t) ->
              e = ((Cls.nunique, ctable_t), up_in_memory_or_stream))).
Proof.
  split; (split; [simpl; tauto|registered_once]).
Qed.

Section DispatchedBodies.

Variable subclass : Cls.t -> Cls.t -> bool.
Hypothesis subclass_refl : forall a, subclass a a = true.
Hypothesis subclass_antisym :
  forall a b, subclass a b = true -> subclass b a = true -> a = b.

Variable rnd : Qc -> Qc.
Variable fsqrt : Qc -> Qc.
Variable available_memory : nat -> Z.
Variable compute_up_memory : Expr -> value -> result value.
Variable compute_up_Iterator : Expr -> value -> result value.
Variable compute_up_ChunkIndexable : Expr -> bcolz -> result value.
Variable eval_str : Expr -> result string.
Variable ctable_where : ctable -> string -> result value.
Variable compute_up_indexing : impl -> Expr -> bcolz -> result value.

(** X12. Whatever the class hierarchy and whatever [eval_str] and the
    vectorized [where] would do, [compute_up] of a [Selection] over a ctable
    runs the body registered last (lines 73-77): it evaluates in memory when
    [4 * nbytes < available_memory()] and over an iterator otherwise, after
    one reading of the available memory, and never consults the vectorized
    [where]. *)
Theorem selection_runs_second_body (expr : Expr) (t : ctable) (reads : nat) :
  cls_of expr = Cls.Selection ->
  compute_up subclass rnd fsqrt available_memory compute_up_memory
             compute_up_Iterator compute_up_ChunkIndexable eval_str
             ctable_where compute_up_indexing expr (Ctable t) reads
  = (if 4 * ct_nbytes t <? available_memory reads
     then compute_up_memory expr (materialize (Ctable t))
     else compute_up_Iterator expr (into_Iterator (Ctable t)),
     S reads).
Proof.
  intros Hcls. destruct registered_Selection as [Hin Hkey].
  unfold compute_up. rewrite Hcls. cbn [kind_of].
  rewrite (resolve_exact subclass subclass_refl subclass_antisym
                         compute_up_funcs _ _ _ Hin Hkey).
  cbn [run]. apply selection_decides.
Qed.

(** X13. [compute_up] of a [nunique] over a carray runs the body of lines
    152-157, registered after the generic one: it counts the distinct values
    directly and never reads the available memory.  Over a ctable it is the
    generic body of lines 144-149 that runs, and that one decides by the
    memory. *)
Theorem nunique_dispatch (expr : Expr) (a : carray) (t : ctable)
        (reads : nat) :
  cls_of expr = Cls.nunique ->
  compute_up subclass rnd fsqrt available_memory compute_up_memory
             compute_up_Iterator compute_up_ChunkIndexable eval_str
             ctable_where compute_up_indexing expr (Carray a) reads
  = (compute_up_nunique expr a, reads) /\
  compute_up subclass rnd fsqrt available_memory compute_up_memory
             compute_up_Iterator compute_up_ChunkIndexable eval_str
             ctable_where compute_up_indexing expr (Ctable t) reads
  = (if 4 * ct_nbytes t <? available_memory reads
     then compute_up_memory expr (materialize (Ctable t))
     else compute_up_Iterator expr (into_Iterator (Ctable t)),
     S reads).
Proof.
  intros Hcls. destruct registered_nunique as [[Hin1 Hkey1] [Hin2 Hkey2]].
  unfold compute_up. rewrite Hcls. cbn [kind_of]. split.
  - rewrite (resolve_exact subclass subclass_refl subclass_antisym
                           compute_up_funcs _ _ _ Hin1 Hkey1).
    reflexivity.
  - rewrite (resolve_exact subclass subclass_refl subclass_antisym
                           compute_up_funcs _ _ _ Hin2 Hkey2).
    cbn [run].
    exact (in_memory_or_stream_decides available_memory compute_up_memory
                                       compute_up_Iterator expr (Ctable t)
                                       reads).
Qed.

End DispatchedBodies.

Lemma selection_runs_second_body_witness :
  let t := mk_ctable ["a"%string] [[Z2Qc 1]; [Z2Qc 2]] 16 in
  let expr := Node Cls.Selection no_attrs [Symbol "t"] in
  compute_up blaze_subclass exact sqrt_fix (fun _ => 0)
             (fun _ v => Ok v) (fun _ v => Ok v) (fun _ _ => Ok (VInt 0))
             (fun _ => Raise SyntaxError) (fun _ _ => Raise TypeError)
             (fun _ _ _ => Ok (VInt 0)) expr (Ctable t) 0%nat
  = (Ok (into_Iterator (Ctable t)), 1%nat).
Proof.
  intros t expr.
  exact (selection_runs_second_body
           blaze_subclass blaze_subclass_refl blaze_subclass_antisym
           exact sqrt_fix (fun _ => 0)
           (fun _ v => Ok v) (fun _ v => Ok v) (fun _ _ => Ok (VInt 0))
           (fun _ => Raise SyntaxError) (fun _ _ => Raise TypeError)
           (fun _ _ _ => Ok (VInt 0)) expr t 0%nat eq_refl).
Defined.

Lemma nunique_dispatch_witness :
  let a := mk_carray (map Z2Qc [1; 1; 2; 2; 3]) 40 in
  let expr := reduction_of Cls.nunique false in
  compute_up blaze_subclass exact sqrt_fix (fun _ => 0)
             (fun _ v => Ok v) (fun _ v => Ok v) (fun _ _ => Ok (VInt 0))
             (fun _ => Ok ""%string) (fun _ _ => Ok (VInt 0))
             (fun _ _ _ => Ok (VInt 0)) expr (Carray a) 0%nat
  = (Ok (VInt 3), 0%nat).
Proof.
  intros a expr.
  exact (proj1 (nunique_dispatch
                  blaze_subclass blaze_subclass_refl blaze_subclass_antisym
                  exact sqrt_fix (fun _ => 0)
                  (fun _ v => Ok v) (fun _ v => Ok v)
                  (fun _ _ => Ok (VInt 0))
                  (fun _ => Ok ""%string) (fun _ _ => Ok (VInt 0))
                  (fun _ _ _ => Ok (VInt 0)) expr a
                  (mk_ctable [] [] 0) 0%nat eq_refl)).
Defined.

Section MoreMemoryDecisions.

Variable available_memory : nat -> Z.
Variable compute_up_memory : Expr -> value -> result value.
Variable compute_up_Iterator : Expr -> value -> result value.
Variable compute_up_ChunkIndexable : Expr -> bcolz -> result value.
Variable eval_str : Expr -> result string.
Variable ctable_where : ctable -> string -> result value.

(** X14. The generic body of lines 144-149 takes one reading of the
    available memory and evaluates in memory exactly when
    [4 * nbytes < available_memory()]: data of exactly a quarter of the
    available memory is streamed. *)
Theorem quarter_of_memory_decides (expr : Expr) (data : bcolz)
        (reads : nat) :
  compute_up_in_memory_or_stream available_memory compute_up_memory
                                 compute_up_Iterator expr data reads
  = (if 4 * nbytes data <? available_memory reads
     then compute_up_memory expr (materialize data)
     else compute_up_Iterator expr (into_Iterator data),
     S reads) /\
  (available_memory reads = 4 * nbytes data ->
   compute_up_in_memory_or_stream available_memory compute_up_memory
                                  compute_up_Iterator expr data reads
   = (compute_up_Iterator expr (into_Iterator data), S reads)).
Proof.
  split.
  - apply in_memory_or_stream_decides.
  - intros Heq. rewrite in_memory_or_stream_decides.
    destruct (Z.ltb_spec (4 * nbytes data) (available_memory reads));
      [lia|reflexivity].
Qed.

(** X17. In the body of lines 160-167 the in-memory evaluation is not dead:
    over data that fits in memory, an exception it raises is what the
    reduction raises, and the chunked evaluation is not reached. *)
Theorem reduction_in_memory_error (expr : Expr) (data : bcolz) (reads : nat)
        (e : exn) :
  4 * nbytes data < available_memory reads ->
  compute_up_memory expr (materialize data) = Raise e ->
  compute_up_Reduction available_memory compute_up_memory
                       compute_up_ChunkIndexable expr data reads
  = (Raise e, S reads).
Proof.
  intros Hfit He. unfold compute_up_Reduction, mbind, fits_in_memory, pure.
  apply comfortable_spec in Hfit. rewrite Hfit, He. reflexivity.
Qed.

End MoreMemoryDecisions.

Lemma quarter_of_memory_decides_witness :
  let data := Carray (mk_carray [Z2Qc 1; Z2Qc 2] 16) in
  compute_up_in_memory_or_stream (fun _ => 64) (fun _ _ => Ok (VInt 1))
                                 (fun _ _ => Ok (VInt 2))
                                 (Node Cls.Distinct no_attrs [Symbol "t"])
                                 data 0%nat
  = (Ok (VInt 2), 1%nat).
Proof.
  intros data.
  exact (proj2 (quarter_of_memory_decides
                  (fun _ => 64) (fun _ _ => Ok (VInt 1))
                  (fun _ _ => Ok (VInt 2))
                  (Node Cls.Distinct no_attrs [Symbol "t"]) data 0%nat)
               eq_refl).
Defined.

Lemma reduction_in_memory_error_witness :
  let data := Carray (mk_carray [Z2Qc 1; Z2Qc 2] 16) in
  compute_up_Reduction (fun _ => 1000) (fun _ _ => Raise TypeError)
                       (fun _ _ => Ok (VInt 2))
                       (Node Cls.Reduction no_attrs [Symbol "t"]) data 0%nat
  = (Raise TypeError, 1%nat).
Proof.
  intros data.
  exact (reduction_in_memory_error
           (fun _ => 1000) (fun _ _ => Raise TypeError)
           (fun _ _ => Ok (VInt 2))
           (Node Cls.Reduction no_attrs [Symbol "t"]) data 0%nat TypeError
           ltac:(vm_compute; reflexivity) eq_refl).
Defined.

(* ================================================================== *)
(** ** More on [compute_down]: failures and the order of the chunks *)

Lemma mapM_all_Ok {A B} (f : A -> result B) (g : A -> B) (l : list A) :
  (forall x, In x l -> f x = Ok (g x)) -> mapM f l = Ok (map g l).
Proof.
  intros H. rewrite <- mapM_Ok. now apply mapM_ext_in.
Qed.


Section PipelineFailures.

Variable compute : Expr -> scope -> result value.
Variable split :
  Expr -> Expr -> Expr -> result ((Expr * Expr) * (Expr * Expr)).
Variable partitions : bcolz -> Z -> list (Z * Z).
Variable pd_concat_unaligned : list value -> result value.

Variables (expr leaf chunk chunk_expr agg agg_expr : Expr).
Variables (data : bcolz) (chunksize : Z).

Hypothesis first_leaf : first (_leaves expr) = Ok leaf.
Hypothesis split_ok :
  split leaf expr (Symbol "chunk")
  = Ok ((chunk, chunk_expr), (agg, agg_expr)).

Lemma compute_down_unfold :
  compute_down compute split partitions pd_concat_unaligned list_map
               expr data chunksize
  = (parts <- mapM (compute_chunk compute data chunk chunk_expr)
                   (partitions data chunksize) ;;
     intermediate <- merge pd_concat_unaligned parts ;;
     compute agg_expr [(agg, intermediate)]).
Proof.
  unfold compute_down, list_map. rewrite first_leaf. cbn [bind].
  rewrite split_ok. cbn [bind].
  destruct (mapM _ _) as [parts|e|]; reflexivity.
Qed.


(** X19. With a [map] that returns a list, when the planner returns no
    partition, [compute_down] raises [IndexError] at [parts[0]], whatever the expression, its split and the
    evaluator are. *)
Theorem no_partition_index_error :
  partitions data chunksize = [] ->
  compute_down compute split partitions pd_concat_unaligned list_map
               expr data chunksize
  = Raise IndexError.
Proof.
  intros Hparts. rewrite compute_down_unfold, Hparts. reflexivity.
Qed.

(** X20. With a [map] that returns a list, when the chunk expression
    evaluates on every partition and the result of the first partition is a bare scalar, none of the three
    branches of lines 221-226 is taken and [compute_down] raises
    [UnboundLocalError]: the aggregate expression is not evaluated. *)
Theorem scalar_chunks_unbound (g : Z * Z -> value) (r : Z * Z)
        (rest : list (Z * Z)) :
  partitions data chunksize = r :: rest ->
  (forall r', In r' (r :: rest) ->
              compute_chunk compute data chunk chunk_expr r' = Ok (g r')) ->
  (exists z, g r = VInt z) \/ (exists x, g r = VFloat x) ->
  compute_down compute split partitions pd_concat_unaligned list_map
               expr data chunksize
  = Raise UnboundLocalError.
Proof.
  intros Hparts Hall Hscalar. rewrite compute_down_unfold, Hparts.
  rewrite (mapM_all_Ok _ g (r :: rest) Hall). cbn [bind map].
  unfold merge. cbn [first bind].
  destruct Hscalar as [[z ->]|[x ->]]; reflexivity.
Qed.

(** X21. With a [map] that returns a list, when the chunk expression
    evaluates to a float array on every partition, [compute_down] evaluates the aggregate expression once, with
    its symbol bound to the arrays of the chunks joined in the order of the
    partitions. *)
Theorem array_chunks_in_order (g : Z * Z -> list fl) (r : Z * Z)
        (rest : list (Z * Z)) :
  partitions data chunksize = r :: rest ->
  (forall r', In r' (r :: rest) ->
              compute_chunk compute data chunk chunk_expr r'
              = Ok (VArray (NdFloat (g r')))) ->
  compute_down compute split partitions pd_concat_unaligned list_map
               expr data chunksize
  = compute agg_expr
            [(agg, VArray (NdFloat (concat (map g (r :: rest)))))].
Proof.
  intros Hparts Hall. rewrite compute_down_unfold, Hparts.
  rewrite (mapM_all_Ok _ (fun r' => VArray (NdFloat (g r'))) (r :: rest) Hall).
  cbn [bind].
  rewrite <- (map_map g (fun ys => VArray (NdFloat ys))).
  unfold merge. cbn [map first bind].
  change (VArray (NdFloat (g r))
            :: map (fun ys => VArray (NdFloat ys)) (map g rest))
    with (map (fun ys => VArray (NdFloat ys)) (g r :: map g rest)).
  rewrite (np_concatenate_floats (g r) (map g rest)). reflexivity.
Qed.

(** X16. With a lazy [map], the builtin of Python 3 and the default of
    the [map] argument there, [compute_down] raises [TypeError] at
    [parts[0]] once the expression is split: no chunk is evaluated, whatever
    the data, the planner, the chunk size and the evaluator are. *)
Theorem lazy_map_type_error :
  compute_down compute split partitions pd_concat_unaligned lazy_map
               expr data chunksize
  = Raise TypeError.
Proof.
  unfold compute_down, lazy_map. rewrite first_leaf. cbn [bind].
  rewrite split_ok. reflexivity.
Qed.

End PipelineFailures.


Lemma no_partition_index_error_witness :
  compute_down compute_bound split_model partitions_model
               (fun _ => Raise NotImplementedError) list_map
               (reduction_of Cls.sum false) (Carray (mk_carray [] 0)) 3
  = Raise IndexError.
Proof.
  exact (no_partition_index_error
           compute_bound split_model partitions_model
           (fun _ => Raise NotImplementedError)
           (reduction_of Cls.sum false) (Symbol "t") (Symbol "chunk")
           (Node Cls.sum (with_keepdims (mk_attrs "" 0 false false 0))
                 [Symbol "chunk"])
           agg_symbol
           (Node Cls.sum (mk_attrs "" 0 false false 0) [agg_symbol])
           (Carray (mk_carray [] 0)) 3 eq_refl eq_refl eq_refl).
Defined.

Lemma scalar_chunks_unbound_witness :
  compute_down (fun _ _ => Ok (VInt 1)) split_model partitions_model
               (fun _ => Raise NotImplementedError) list_map
               (reduction_of Cls.sum false) (Carray one_to_ten) 3
  = Raise UnboundLocalError.
Proof.
  apply (scalar_chunks_unbound
           (fun _ _ => Ok (VInt 1)) split_model partitions_model
           (fun _ => Raise NotImplementedError)
           (reduction_of Cls.sum false) (Symbol "t") (Symbol "chunk")
           (Node Cls.sum (with_keepdims (mk_attrs "" 0 false false 0))
                 [Symbol "chunk"])
           agg_symbol
           (Node Cls.sum (mk_attrs "" 0 false false 0) [agg_symbol])
           (Carray one_to_ten) 3 eq_refl eq_refl
           (fun _ => VInt 1) (0, 3) [(3, 6); (6, 9); (9, 10)]).
  - reflexivity.
  - intros r' _. reflexivity.
  - left. exists 1. reflexivity.
Defined.

Lemma array_chunks_in_order_witness :
  compute_down compute_bound split_model partitions_model
               (fun _ => Raise NotImplementedError) list_map
               (reduction_of Cls.sum false) (Carray one_to_ten) 3
  = Ok (materialize (Carray one_to_ten)).
Proof.
  rewrite (array_chunks_in_order
             compute_bound split_model partitions_model
             (fun _ => Raise NotImplementedError)
             (reduction_of Cls.sum false) (Symbol "t") (Symbol "chunk")
             (Node Cls.sum (with_keepdims (mk_attrs "" 0 false false 0))
                   [Symbol "chunk"])
             agg_symbol
             (Node Cls.sum (mk_attrs "" 0 false false 0) [agg_symbol])
             (Carray one_to_ten) 3 eq_refl eq_refl
             (fun r => map Fin (getslice (items one_to_ten) (fst r) (snd r)))
             (0, 3) [(3, 6); (6, 9); (9, 10)] eq_refl).
  - reflexivity.
  - intros r' _. reflexivity.
Defined.

Lemma lazy_map_type_error_witness :
  compute_down (fun _ _ => Diverge) split_model partitions_model
               (fun _ => Raise NotImplementedError) lazy_map
               (reduction_of Cls.sum false) (Carray one_to_ten) 3
  = Raise TypeError.
Proof.
  exact (lazy_map_type_error
           (fun _ _ => Diverge) split_model partitions_model
           (fun _ => Raise NotImplementedError)
           (reduction_of Cls.sum false) (Symbol "t") (Symbol "chunk")
           (Node Cls.sum (with_keepdims (mk_attrs "" 0 false false 0))
                 [Symbol "chunk"])
           agg_symbol
           (Node Cls.sum (mk_attrs "" 0 false false 0) [agg_symbol])
           (Carray one_to_ten) 3 eq_refl eq_refl).
Defined.
